(** * LSB steganography codec: shallow embedding and verification

    The development embeds the codec of [steganography.ts] (the header-based
    format: [calculateCapacity], [encodeText], [decodeText],
    [decodeLegacyFormat]) together with the earlier headerless encoder, and
    proves the properties stated for it.

    Conventions.
    - A JavaScript string is the list of its UTF-16 code units.
    - A typed array ([Uint8Array], [Uint8ClampedArray]) is the list of its
      samples, each an integer in [0, 255].
    - The binary strings the codec builds (['0'] / ['1'] characters) are
      lists of the digits 0 and 1.
    - JavaScript numbers are mathematical integers: every quantity here is far
      below 2^53, where double arithmetic on integers is exact. *)

From Stdlib Require Import String Ascii.
From Stdlib Require Import ZArith List Bool Lia Arith Zify ZifyNat ZifyBool.
Import ListNotations.
Local Open Scope Z_scope.

(* ================================================================== *)
(** * Platform model: strings, TextEncoder, TextDecoder *)
(* ================================================================== *)

Module JS.

(** A string value: its UTF-16 code units. *)
Definition jsstring := list Z.

(** String literal to code units. *)
Definition str (s : string) : jsstring :=
  map (fun a => Z.of_nat (nat_of_ascii a)) (list_ascii_of_string s).

Fixpoint str_eqb (a b : jsstring) : bool :=
  match a, b with
  | [], [] => true
  | x :: a', y :: b' => (x =? y) && str_eqb a' b'
  | _, _ => false
  end.

(** [s.endsWith(suffix)] *)
Definition endsWith (s suffix : jsstring) : bool :=
  (length suffix <=? length s)%nat
  && str_eqb (skipn (length s - length suffix) s) suffix.

(** [s.slice(0, -n)] for [n > 0]: everything but the last [n] code units. *)
Definition slice_to_neg (s : jsstring) (n : nat) : jsstring :=
  firstn (length s - n) s.

(** [a.slice(start, end)] on arrays, for non-negative [start], [end]. *)
Definition slice {A} (a : list A) (start stop : nat) : list A :=
  skipn start (firstn stop a).

(** [s.slice(-n)]: the last [n] items. *)
Definition slice_last {A} (s : list A) (n : nat) : list A :=
  skipn (length s - n) s.

(** ** Number formatting and parsing in base 2 *)

Fixpoint pos_digits (p : positive) : list Z :=
  match p with
  | xH => [1]
  | xO q => pos_digits q ++ [0]
  | xI q => pos_digits q ++ [1]
  end.

(** [n.toString(2)] for a non-negative integer [n]. *)
Definition toString2 (n : Z) : list Z :=
  match n with
  | Zpos p => pos_digits p
  | _ => [0]
  end.

(** [s.padStart(8, '0')] *)
Definition padStart8 (s : list Z) : list Z :=
  repeat 0 (8 - length s) ++ s.

(** [parseInt(s, 2)] on a non-empty string of binary digits. *)
Definition parseInt2 (s : list Z) : Z :=
  fold_left (fun acc d => 2 * acc + d) s 0.

(** [s.match(/.{1,8}/g)]: greedy chunks of eight characters, the last one
    possibly shorter; [null] (here [None]) when [s] is empty.  [cur] is the
    chunk being filled. *)
Fixpoint chunks8 (cur s : list Z) : list (list Z) :=
  match s with
  | [] => match cur with [] => [] | _ => [cur] end
  | c :: rest =>
      let cur' := cur ++ [c] in
      if (length cur' =? 8)%nat then cur' :: chunks8 [] rest
      else chunks8 cur' rest
  end.

Definition match8 (s : list Z) : option (list (list Z)) :=
  match chunks8 [] s with
  | [] => None
  | l => Some l
  end.

(** [new Uint8Array(xs)]: each number is stored modulo 256. *)
Definition Uint8Array (xs : list Z) : list Z := map (fun x => x mod 256) xs.

(** [DataView.setUint32(0, n, false)] on a 4-byte buffer: big-endian,
    [n] taken modulo 2^32. *)
Definition setUint32 (n : Z) : list Z :=
  [ (n / 16777216) mod 256; (n / 65536) mod 256; (n / 256) mod 256; n mod 256 ].

(** [DataView.getUint32(0, false)] on a 4-byte buffer. *)
Definition getUint32 (bs : list Z) : Z :=
  nth 0 bs 0 * 16777216 + nth 1 bs 0 * 65536 + nth 2 bs 0 * 256 + nth 3 bs 0.

(** ** UTF-16 and UTF-8 (WHATWG Encoding Standard) *)

Definition is_high (c : Z) : bool := (0xD800 <=? c) && (c <=? 0xDBFF).
Definition is_low (c : Z) : bool := (0xDC00 <=? c) && (c <=? 0xDFFF).

(** Conversion of a string to scalar values, as done on every [USVString]
    argument: a surrogate pair is one scalar value, a lone surrogate is
    replaced by U+FFFD. *)
Fixpoint code_points (s : jsstring) : list Z :=
  match s with
  | [] => []
  | c :: rest =>
      if is_high c then
        match rest with
        | d :: rest' =>
            if is_low d
            then (0x10000 + (c - 0xD800) * 1024 + (d - 0xDC00)) :: code_points rest'
            else 0xFFFD :: code_points rest
        | [] => [0xFFFD]
        end
      else if is_low c then 0xFFFD :: code_points rest
      else c :: code_points rest
  end.

(** The UTF-8 encoder's handler for one scalar value. *)
Definition utf8_encode_cp (cp : Z) : list Z :=
  if cp <=? 0x7F then [cp]
  else if cp <=? 0x7FF then [0xC0 + cp / 64; 0x80 + cp mod 64]
  else if cp <=? 0xFFFF then
    [0xE0 + cp / 4096; 0x80 + (cp / 64) mod 64; 0x80 + cp mod 64]
  else
    [0xF0 + cp / 262144; 0x80 + (cp / 4096) mod 64;
     0x80 + (cp / 64) mod 64; 0x80 + cp mod 64].

(** [new TextEncoder().encode(s)] *)
Definition TextEncoder_encode (s : jsstring) : list Z :=
  flat_map utf8_encode_cp (code_points s).

(** State of the UTF-8 decoder. *)
Record utf8_state := mk_utf8_state {
  code_point : Z;
  bytes_seen : Z;
  bytes_needed : Z;
  lower_boundary : Z;
  upper_boundary : Z
}.

Definition utf8_init : utf8_state := mk_utf8_state 0 0 0 0x80 0xBF.

(** What the decoder's handler returns for one byte. *)
Inductive utf8_result :=
| Continue
| CodePoint (cp : Z)
| DecodeFailure.

(** The handler when no continuation byte is pending
    ([bytes_needed = 0]). *)
Definition utf8_lead (b : Z) : utf8_state * utf8_result :=
  if b <=? 0x7F then (utf8_init, CodePoint b)
  else if (0xC2 <=? b) && (b <=? 0xDF) then
    (mk_utf8_state (b mod 32) 0 1 0x80 0xBF, Continue)
  else if (0xE0 <=? b) && (b <=? 0xEF) then
    (mk_utf8_state (b mod 16) 0 2
       (if b =? 0xE0 then 0xA0 else 0x80)
       (if b =? 0xED then 0x9F else 0xBF), Continue)
  else if (0xF0 <=? b) && (b <=? 0xF4) then
    (mk_utf8_state (b mod 8) 0 3
       (if b =? 0xF0 then 0x90 else 0x80)
       (if b =? 0xF4 then 0x8F else 0xBF), Continue)
  else (utf8_init, DecodeFailure).

Definition items_of (r : utf8_result) : list (option Z) :=
  match r with
  | Continue => []
  | CodePoint cp => [Some cp]
  | DecodeFailure => [None]
  end.

(** Running the decoder over a byte sequence.  The output lists, in order,
    the decoded code points ([Some cp]) and the decoding failures ([None]).
    A byte outside the expected continuation range is a failure and is then
    processed again as a lead byte; a sequence cut short by the end of the
    input is a failure. *)
Fixpoint utf8_run (st : utf8_state) (bs : list Z) : list (option Z) :=
  match bs with
  | [] => if bytes_needed st =? 0 then [] else [None]
  | b :: rest =>
      if bytes_needed st =? 0 then
        let '(st', r) := utf8_lead b in items_of r ++ utf8_run st' rest
      else if (b <? lower_boundary st) || (upper_boundary st <? b) then
        let '(st', r) := utf8_lead b in
        None :: items_of r ++ utf8_run st' rest
      else
        let cp := code_point st * 64 + b mod 64 in
        if bytes_seen st + 1 =? bytes_needed st
        then Some cp :: utf8_run utf8_init rest
        else utf8_run
               (mk_utf8_state cp (bytes_seen st + 1) (bytes_needed st) 0x80 0xBF)
               rest
  end.

(** Byte-order-mark handling of a decoder created without [ignoreBOM]: a
    leading U+FEFF is dropped from the output. *)
Definition strip_bom (cps : list Z) : list Z :=
  match cps with
  | cp :: rest => if cp =? 0xFEFF then rest else cps
  | [] => []
  end.

(** A code point as UTF-16 code units. *)
Definition utf16_encode_cp (cp : Z) : jsstring :=
  if cp <=? 0xFFFF then [cp]
  else [0xD800 + (cp - 0x10000) / 1024; 0xDC00 + (cp - 0x10000) mod 1024].

Definition replacement (item : option Z) : Z :=
  match item with Some cp => cp | None => 0xFFFD end.

(** [new TextDecoder('utf-8').decode(bytes)]: every decoding failure yields
    U+FFFD; the call never throws. *)
Definition TextDecoder_decode (bs : list Z) : jsstring :=
  flat_map utf16_encode_cp (strip_bom (map replacement (utf8_run utf8_init bs))).

Fixpoint all_decoded (items : list (option Z)) : option (list Z) :=
  match items with
  | [] => Some []
  | Some cp :: rest =>
      match all_decoded rest with
      | Some cps => Some (cp :: cps)
      | None => None
      end
  | None :: _ => None
  end.

(** [new TextDecoder('utf-8', { fatal: true }).decode(bytes)]: a decoding
    failure throws (here [None]). *)
Definition TextDecoder_decode_fatal (bs : list Z) : option jsstring :=
  match all_decoded (utf8_run utf8_init bs) with
  | Some cps => Some (flat_map utf16_encode_cp (strip_bom cps))
  | None => None
  end.

(** A byte sequence is valid UTF-8 when a fatal decoder accepts it. *)
Definition valid_utf8 (bs : list Z) : bool :=
  match all_decoded (utf8_run utf8_init bs) with
  | Some _ => true
  | None => false
  end.

(** [String.fromCharCode(c)] for [0 <= c < 65536]. *)
Definition fromCharCode (c : Z) : jsstring := [c].

End JS.

Import JS.

(* ================================================================== *)
(** * The codec *)
(* ================================================================== *)

(** [ImageData]: dimensions and the RGBA samples, row-major. *)
Record ImageData := mkImageData {
  width : Z;
  height : Z;
  data : list Z
}.

(** The errors the codec throws, one per message:
    - [CapacityExceeded n]: ["Text too long. Maximum capacity: n characters"]
    - [NoMessageFound]: ["No hidden message found in this image"]
    - [InvalidLength]: ["Invalid message length detected"]
    - [ExtractionFailed]: ["Failed to extract message"] *)
Inductive error :=
| CapacityExceeded (maxChars : Z)
| NoMessageFound
| InvalidLength
| ExtractionFailed.

(** Outcome of a call: a returned value or a thrown error. *)
Inductive outcome (A : Type) :=
| Ok (a : A)
| Throw (e : error).
Arguments Ok {A} a.
Arguments Throw {A} e.

Definition DELIMITER : jsstring := Eval cbv in str "$$END$$"%string.
Definition MAGIC_HEADER : jsstring := Eval cbv in str "STEGO1"%string.

Definition calculateCapacity (width height : Z) : Z :=
  let totalBits := width * height * 3 in
  let headerBits := (Z.of_nat (length MAGIC_HEADER) + 4) * 8 in
  let delimiterBits := Z.of_nat (length DELIMITER) * 8 in
  (totalBits - headerBits - delimiterBits) / 8.

(** The binary string of a byte array: each byte as
    [b.toString(2).padStart(8, '0')], concatenated. *)
Definition bytes_to_binary (bytes : list Z) : list Z :=
  flat_map (fun b => padStart8 (toString2 b)) bytes.

(** The embedding loop of [encodeText]:
    [for (i = 0; i < data.length && binaryIndex < binaryText.length; i++)].
    The recursion is on the samples from index [i] on. *)
Fixpoint encode_loop (binaryText : list Z) (i : nat) (data : list Z)
    (binaryIndex : nat) : list Z :=
  match data with
  | [] => []
  | d :: rest =>
      if (binaryIndex <? length binaryText)%nat then
        if ((i + 1) mod 4 =? 0)%nat
        then d :: encode_loop binaryText (S i) rest binaryIndex
        else
          let bit := nth binaryIndex binaryText 0 in
          Z.lor (Z.land d 0xFE) bit
            :: encode_loop binaryText (S i) rest (S binaryIndex)
      else data
  end.

(** [encodeText].  The reported [maxChars] is
    [Math.floor(maxBits / 8 - a - b - c)] for integers [a], [b], [c], that is
    the floored quotient [maxBits / 8] less [a + b + c]. *)
Definition encodeText (imageData : ImageData) (secretText : jsstring)
    : outcome ImageData :=
  let fullMessage := secretText ++ DELIMITER in
  let messageBytes := TextEncoder_encode fullMessage in
  let headerBytes := TextEncoder_encode MAGIC_HEADER in
  let lengthBytes := setUint32 (Z.of_nat (length messageBytes)) in
  let totalBytes := headerBytes ++ lengthBytes ++ messageBytes in
  let binaryText := bytes_to_binary totalBytes in
  let maxBits := width imageData * height imageData * 3 in
  if Z.of_nat (length binaryText) >? maxBits then
    Throw (CapacityExceeded
             (maxBits / 8 - Z.of_nat (length headerBytes)
              - Z.of_nat (length lengthBytes) - Z.of_nat (length DELIMITER)))
  else
    Ok (mkImageData (width imageData) (height imageData)
          (encode_loop binaryText 0 (data imageData) 0)).

(** The extraction loop of [decodeText], used twice there with two limits:
    [for (i = 0; i < data.length && binaryText.length < limit; i++)]. *)
Fixpoint extract_loop (limit : Z) (i : nat) (data : list Z)
    (binaryText : list Z) : list Z :=
  match data with
  | [] => binaryText
  | d :: rest =>
      if Z.of_nat (length binaryText) <? limit then
        if ((i + 1) mod 4 =? 0)%nat
        then extract_loop limit (S i) rest binaryText
        else extract_loop limit (S i) rest (binaryText ++ [Z.land d 1])
      else binaryText
  end.

(** The character [decodeLegacyFormat] appends for a completed byte. *)
Definition legacy_char (charCode : Z) : jsstring :=
  if (charCode >=? 32) && (charCode <=? 126) then fromCharCode charCode
  else if charCode >? 0 then
    match TextDecoder_decode_fatal (Uint8Array [charCode]) with
    | Some s => s
    | None => fromCharCode charCode
    end
  else [].

(** The scan loop of [decodeLegacyFormat]; falling out of the loop (end of
    data, or [break] at the safety limit) reaches the final [throw]. *)
Fixpoint legacy_loop (i : nat) (data : list Z) (binaryText : list Z)
    (text : jsstring) : outcome jsstring :=
  match data with
  | [] => Throw NoMessageFound
  | d :: rest =>
      if ((i + 1) mod 4 =? 0)%nat then legacy_loop (S i) rest binaryText text
      else
        let binaryText := binaryText ++ [Z.land d 1] in
        if (length binaryText mod 8 =? 0)%nat then
          let byte := slice_last binaryText 8 in
          let charCode := parseInt2 byte in
          let text := text ++ legacy_char charCode in
          if endsWith text DELIMITER
          then Ok (slice_to_neg text (length DELIMITER))
          else if Z.of_nat (length text) >? 1000000 then Throw NoMessageFound
          else legacy_loop (S i) rest binaryText text
        else legacy_loop (S i) rest binaryText text
  end.

Definition decodeLegacyFormat (imageData : ImageData) : outcome jsstring :=
  legacy_loop 0 (data imageData) [] [].

(** The phases of [decodeText], named after its local variables. *)

Definition headerSize : nat := length MAGIC_HEADER + 4.

(** The header chunks: [binaryText.match(/.{1,8}/g)] after the first loop. *)
Definition header_chunks (imageData : ImageData) : option (list (list Z)) :=
  match8 (extract_loop (Z.of_nat (headerSize * 8)) 0 (data imageData) []).

(** [extractedBytes] after the loop [for (j = 0; j < headerSize; j++)]. *)
Definition extractedBytes_of (headerBytes : list (list Z)) : list Z :=
  map parseInt2 (firstn headerSize headerBytes).

Definition magic_of (extractedBytes : list Z) : jsstring :=
  TextDecoder_decode (Uint8Array (slice extractedBytes 0 (length MAGIC_HEADER))).

Definition messageLength_of (extractedBytes : list Z) : Z :=
  getUint32
    (Uint8Array
       (slice extractedBytes (length MAGIC_HEADER) (length MAGIC_HEADER + 4))).

Definition maxPossibleLength (imageData : ImageData) : Z :=
  (Z.of_nat (length (data imageData)) * 3) / (4 * 8).

(** [messageByteStrings]: the chunks selected as payload by
    [allBytes.slice(headerSize, headerSize + messageLength)]. *)
Definition messageByteStrings_of (imageData : ImageData) (messageLength : Z)
    : option (list (list Z)) :=
  let totalBitsNeeded := (Z.of_nat headerSize + messageLength) * 8 in
  match match8 (extract_loop totalBitsNeeded 0 (data imageData) []) with
  | None => None
  | Some allBytes =>
      Some (slice allBytes headerSize (headerSize + Z.to_nat messageLength))
  end.

(** The end of [decodeText]: decode the payload, drop a trailing delimiter. *)
Definition finish_message (messageBytes : list Z) : jsstring :=
  let message := TextDecoder_decode messageBytes in
  if endsWith message DELIMITER
  then slice_to_neg message (length DELIMITER)
  else message.

Definition decodeText (imageData : ImageData) : outcome jsstring :=
  match header_chunks imageData with
  | None => Throw NoMessageFound
  | Some headerBytes =>
      if (length headerBytes <? headerSize)%nat then Throw NoMessageFound
      else
        let extractedBytes := extractedBytes_of headerBytes in
        if negb (str_eqb (magic_of extractedBytes) MAGIC_HEADER)
        then decodeLegacyFormat imageData
        else
          let messageLength := messageLength_of extractedBytes in
          if (messageLength >? maxPossibleLength imageData)
             || (messageLength >? 10000000)
          then Throw InvalidLength
          else
            match messageByteStrings_of imageData messageLength with
            | None => Throw ExtractionFailed
            | Some messageByteStrings =>
                Ok (finish_message (Uint8Array (map parseInt2 messageByteStrings)))
            end
  end.

(** ** The earlier, headerless encoder *)

Module Legacy.

(** [text.split('').map(c => c.charCodeAt(0).toString(2).padStart(8,'0')).join('')] *)
Definition textToBinary (text : jsstring) : list Z :=
  flat_map (fun c => padStart8 (toString2 c)) text.

Definition calculateCapacity (width height : Z) : Z :=
  let totalBits := width * height * 3 in
  let delimiterBits := Z.of_nat (length DELIMITER) * 8 in
  (totalBits - delimiterBits) / 8.

Definition encodeText (imageData : ImageData) (secretText : jsstring)
    : outcome ImageData :=
  let textWithDelimiter := secretText ++ DELIMITER in
  let binaryText := textToBinary textWithDelimiter in
  let maxCapacity := calculateCapacity (width imageData) (height imageData) in
  if Z.of_nat (length textWithDelimiter) >? maxCapacity then
    Throw (CapacityExceeded maxCapacity)
  else
    Ok (mkImageData (width imageData) (height imageData)
          (encode_loop binaryText 0 (data imageData) 0)).

(** [binaryToText]: each chunk of up to eight digits as one character,
    [''] when there is no chunk. *)
Definition binaryToText (binary : list Z) : jsstring :=
  match match8 binary with
  | None => []
  | Some bytes => flat_map (fun byte => fromCharCode (parseInt2 byte)) bytes
  end.

(** The scan loop of the headerless [decodeText]; running out of samples
    reaches the final [throw]. *)
Fixpoint decode_loop (i : nat) (data : list Z) (binaryText : list Z)
    (text : jsstring) : outcome jsstring :=
  match data with
  | [] => Throw NoMessageFound
  | d :: rest =>
      if ((i + 1) mod 4 =? 0)%nat then decode_loop (S i) rest binaryText text
      else
        let binaryText := binaryText ++ [Z.land d 1] in
        if (length binaryText mod 8 =? 0)%nat then
          let char := binaryToText (slice_last binaryText 8) in
          let text := text ++ char in
          if endsWith text DELIMITER
          then Ok (slice_to_neg text (length DELIMITER))
          else decode_loop (S i) rest binaryText text
        else decode_loop (S i) rest binaryText text
  end.

Definition decodeText (imageData : ImageData) : outcome jsstring :=
  decode_loop 0 (data imageData) [] [].

End Legacy.

(** ** Rasters *)

(** A raster buffer: non-negative dimensions, four samples per pixel, each
    sample an unsigned byte. *)
Definition raster (img : ImageData) : Prop :=
  0 <= width img /\ 0 <= height img /\
  Z.of_nat (length (data img)) = width img * height img * 4 /\
  Forall (fun d => 0 <= d <= 255) (data img).

(** A string value: every code unit is a 16-bit number. *)
Definition is_string (s : jsstring) : Prop :=
  Forall (fun c => 0 <= c <= 0xFFFF) s.

(** Well-formed UTF-16: every surrogate is half of a pair. *)
Fixpoint well_formed (s : jsstring) : Prop :=
  match s with
  | [] => True
  | c :: rest =>
      if is_high c then
        match rest with
        | d :: rest' => is_low d = true /\ well_formed rest'
        | [] => False
        end
      else is_low c = false /\ well_formed rest
  end.

(** The non-alpha samples of [data], whose first sample has index [i]. *)
Fixpoint non_alpha (i : nat) (data : list Z) : list Z :=
  match data with
  | [] => []
  | d :: rest =>
      if ((i + 1) mod 4 =? 0)%nat then non_alpha (S i) rest
      else d :: non_alpha (S i) rest
  end.

(** The bit stream a buffer carries: the least significant bits of its
    non-alpha samples. *)
Definition lsb_stream (data : list Z) : list Z :=
  map (fun d => Z.land d 1) (non_alpha 0 data).

(** A raster filled with the sample [v]. *)
Definition blank (w h : Z) (v : Z) : ImageData :=
  mkImageData w h (repeat v (Z.to_nat (w * h * 4))).

(** A buffer of [n] samples whose non-alpha samples are the digits [bits], in
    order, then zeros; its alpha samples are 255. *)
Fixpoint carrier (i : nat) (n : nat) (bits : list Z) : list Z :=
  match n with
  | O => []
  | S n' =>
      if ((i + 1) mod 4 =? 0)%nat then 255 :: carrier (S i) n' bits
      else match bits with
           | [] => 0 :: carrier (S i) n' []
           | b :: bits' => b :: carrier (S i) n' bits'
           end
  end.

Definition carrier_image (w h : Z) (bytes : list Z) : ImageData :=
  mkImageData w h (carrier 0 (Z.to_nat (w * h * 4)) (bytes_to_binary bytes)).

(** ** Auxiliary notions used in the statements *)

(** Binary digits. *)
Definition digits01 (l : list Z) : Prop := Forall (fun d => d = 0 \/ d = 1) l.

(** Byte values. *)
Definition byte_list (l : list Z) : Prop := Forall (fun b => 0 <= b <= 255) l.

(** ASCII text: every code unit is below 128. *)
Definition ascii_text (s : jsstring) : Prop := Forall (fun c => 0 <= c <= 127) s.

(** Executable check that a byte prints as eight binary digits that parse
    back to it. *)
Definition byte_ok (b : Z) : bool :=
  let ds := padStart8 (toString2 b) in
  (length ds =? 8)%nat && (parseInt2 ds =? b)
  && forallb (fun d => (d =? 0) || (d =? 1)) ds.

(** The embedding loop on the bits still to be written. *)
Fixpoint embed (i : nat) (data : list Z) (bits : list Z) : list Z :=
  match data with
  | [] => []
  | d :: rest =>
      match bits with
      | [] => data
      | bit :: bits' =>
          if ((i + 1) mod 4 =? 0)%nat then d :: embed (S i) rest bits
          else Z.lor (Z.land d 0xFE) bit :: embed (S i) rest bits'
      end
  end.

(** The current-format path of [decodeText] with validated length [L]: the
    header is complete, the magic token matches, and the declared length
    passes both ceilings. *)
Definition current_format (img : ImageData) (L : Z) : Prop :=
  exists headerBytes,
    header_chunks img = Some headerBytes /\
    (headerSize <= length headerBytes)%nat /\
    magic_of (extractedBytes_of headerBytes) = MAGIC_HEADER /\
    messageLength_of (extractedBytes_of headerBytes) = L /\
    L <= maxPossibleLength img /\ L <= 10000000.

(** The payload chunks and bytes [decodeText] decodes on that path. *)
Definition payload_chunks (img : ImageData) (L : Z) : list (list Z) :=
  match messageByteStrings_of img L with
  | Some m => m
  | None => []
  end.

Definition payload_bytes (img : ImageData) (L : Z) : list Z :=
  Uint8Array (map parseInt2 (payload_chunks img L)).

(** Executable check that the legacy scan appends exactly the character
    with code [b] for the byte [b]. *)
Definition legacy_char_ok (b : Z) : bool := str_eqb (legacy_char b) [b].

(** Unicode scalar values: code points other than surrogates. *)
Definition scalar (cp : Z) : Prop :=
  0 <= cp < 0xD800 \/ 0xE000 <= cp <= 0x10FFFF.

(** The legacy scan as a function of the bit stream. *)
Fixpoint legacy_scan (stream : list Z) (binaryText : list Z) (text : jsstring)
    : outcome jsstring :=
  match stream with
  | [] => Throw NoMessageFound
  | b :: rest =>
      let binaryText := binaryText ++ [b] in
      if (length binaryText mod 8 =? 0)%nat then
        let charCode := parseInt2 (slice_last binaryText 8) in
        let text := text ++ legacy_char charCode in
        if endsWith text DELIMITER
        then Ok (slice_to_neg text (length DELIMITER))
        else if Z.of_nat (length text) >? 1000000 then Throw NoMessageFound
        else legacy_scan rest binaryText text
      else legacy_scan rest binaryText text
  end.

(** No proper prefix of [s] ends with the delimiter token. *)
Definition delimiter_only_at_end (s : jsstring) : bool :=
  forallb (fun k => negb (endsWith (firstn k s) DELIMITER)) (seq 0 (length s)).

(** Text the headerless encoder writes one byte per character: every
    character code is in 1..255. *)
Definition latin1_text (s : jsstring) : Prop := Forall (fun c => 1 <= c <= 255) s.

(** A decoder state in the middle of a multi-byte sequence; the code point
    that the sequence can still complete to is at least U+0080. *)
Definition pending_ok (st : utf8_state) : Prop :=
  0 <= code_point st /\ 0 <= bytes_seen st
  /\ 0x80 <= lower_boundary st /\ upper_boundary st <= 0xBF
  /\ let v := code_point st * 64 + (lower_boundary st - 0x80) in
     (bytes_needed st - bytes_seen st = 1 /\ 128 <= v)
     \/ (bytes_needed st - bytes_seen st = 2 /\ 128 <= v * 64)
     \/ (bytes_needed st - bytes_seen st = 3 /\ 128 <= v * 4096).

(** A decoder output item that is an ASCII code point. *)
Definition ascii_item (item : option Z) : Prop :=
  match item with
  | Some cp => 0 <= cp <= 127
  | None => False
  end.

(** ** Sample buffers *)

(** A current-format frame: magic, declared length [L], payload bytes. *)
Definition framed (L : Z) (payload : list Z) : list Z :=
  TextEncoder_encode MAGIC_HEADER ++ setUint32 L ++ payload.

(** 4x8 raster (96 usable bits) carrying a frame that declares 2 bytes,
    ["hi"], with no delimiter. *)
Definition img_no_delimiter : ImageData :=
  carrier_image 4 8 (framed 2 (str "hi"%string)).

(** 8x8 raster carrying a frame that declares 9 bytes, ["hi$$END$$"]. *)
Definition img_with_delimiter : ImageData :=
  carrier_image 8 8 (framed 9 (str "hi$$END$$"%string)).

(** The samples of [img_with_delimiter] with other upper bits, alpha samples
    included, laid out as a 4x16 raster: the least significant bits are the
    same. *)
Definition img_repainted : ImageData :=
  mkImageData 4 16
    (map (fun d => Z.lor 0x50 (Z.land d 1)) (data img_with_delimiter)).

(** 4x8 raster carrying a frame that declares 1 byte, 0xFF. *)
Definition img_invalid_utf8 : ImageData :=
  carrier_image 4 8 (framed 1 [0xFF]).

(** 4x8 raster (96 usable bits, 12 bytes) carrying a frame that declares 12
    payload bytes, of which only the 2 bytes ["hi"] fit after the header. *)
Definition img_truncated : ImageData :=
  carrier_image 4 8 (framed 12 (str "hi"%string)).

(** 5x5 raster (75 usable bits) carrying the magic token, then zeros. *)
Definition img_short_header : ImageData :=
  carrier_image 5 5 (TextEncoder_encode MAGIC_HEADER).

(* ================================================================== *)
(** * Further functions of the library *)
(* ================================================================== *)

(** [textToBinary] of the header-based library: the UTF-8 bytes of the text,
    eight digits each. *)
Definition textToBinary (text : jsstring) : list Z :=
  bytes_to_binary (TextEncoder_encode text).

(** [binaryToText] of the header-based library: the chunks of up to eight
    digits as bytes, decoded as UTF-8; [''] when there is no chunk. *)
Definition binaryToText (binary : list Z) : jsstring :=
  match match8 binary with
  | None => []
  | Some bytes => TextDecoder_decode (Uint8Array (map parseInt2 bytes))
  end.

(** The headerless scan as a function of the bit stream. *)
Fixpoint old_scan (stream : list Z) (binaryText : list Z) (text : jsstring)
    : outcome jsstring :=
  match stream with
  | [] => Throw NoMessageFound
  | b :: rest =>
      let binaryText := binaryText ++ [b] in
      if (length binaryText mod 8 =? 0)%nat then
        let text := text ++ Legacy.binaryToText (slice_last binaryText 8) in
        if endsWith text DELIMITER
        then Ok (slice_to_neg text (length DELIMITER))
        else old_scan rest binaryText text
      else old_scan rest binaryText text
  end.

(** Text the headerless codec carries one byte per character: every
    character code is in 0..255. *)
Definition byte_text (s : jsstring) : Prop := Forall (fun c => 0 <= c <= 255) s.

(** The bytes of a sequence that are not 0, in order. *)
Definition nonzero_bytes (bytes : list Z) : list Z :=
  filter (fun b => negb (b =? 0)) bytes.

(** Executable check that writing a bit into the sample [d] keeps it a byte
    and changes nothing above its least significant bit. *)
Definition sample_ok (d : Z) : bool :=
  forallb
    (fun b => let o := Z.lor (Z.land d 0xFE) b in
              (o / 2 =? d / 2) && (0 <=? o) && (o <=? 255))
    [0; 1].

(** The number of non-alpha samples below index [j]. *)
Definition rank (j : nat) : nat := (j - j / 4)%nat.

(** ** Video frames ([videoSteganography.ts]) *)

(** [videoSteganography.ts] imports [encodeText], [decodeText] and
    [calculateCapacity] from ['./steganography'], the module beside it in
    [src/lib]: the headerless codec, [Legacy] here. *)

Module Video.

Section Frames.

(** The type of time stamps; the functions below only carry them along. *)
Variable time : Type.

Record VideoFrame := mkVideoFrame {
  imageData : ImageData;
  timestamp : time
}.

(** The errors of the frame functions: an error of the codec, or one of
    - [NoFramesToEncode]: ["No frames to encode"]
    - [NoFramesToDecode]: ["No frames to decode"]
    - [NoMessageInVideo]: ["No hidden message found in this video"].
    The capacity check of [encodeTextInFrames] throws the message of the
    codec's [CapacityExceeded]. *)
Inductive video_error :=
| Codec (e : error)
| NoFramesToEncode
| NoFramesToDecode
| NoMessageInVideo.

Inductive video_outcome (A : Type) :=
| VOk (a : A)
| VThrow (e : video_error).
Arguments VOk {A} a.
Arguments VThrow {A} e.

Definition calculateVideoCapacity (frames : list VideoFrame) : Z :=
  match frames with
  | [] => 0
  | frame0 :: _ =>
      Legacy.calculateCapacity
        (width (imageData frame0)) (height (imageData frame0))
  end.

(** [frames.map((frame, index) => ...)] with a callback that may throw. *)
Fixpoint map_frames (f : VideoFrame -> nat -> video_outcome VideoFrame)
    (index : nat) (frames : list VideoFrame) : video_outcome (list VideoFrame) :=
  match frames with
  | [] => VOk []
  | frame :: rest =>
      match f frame index with
      | VThrow e => VThrow e
      | VOk frame' =>
          match map_frames f (S index) rest with
          | VThrow e => VThrow e
          | VOk rest' => VOk (frame' :: rest')
          end
      end
  end.

(** [encodeTextInFrames], called without a progress callback. *)
Definition encodeTextInFrames (frames : list VideoFrame) (secretText : jsstring)
    : video_outcome (list VideoFrame) :=
  if (length frames =? 0)%nat then VThrow NoFramesToEncode
  else
    let capacity := calculateVideoCapacity frames in
    if Z.of_nat (length secretText) >? capacity
    then VThrow (Codec (CapacityExceeded capacity))
    else
      map_frames
        (fun frame index =>
           if (index =? 0)%nat then
             match Legacy.encodeText (imageData frame) secretText with
             | Throw e => VThrow (Codec e)
             | Ok encodedImageData =>
                 VOk (mkVideoFrame encodedImageData (timestamp frame))
             end
           else VOk frame)
        0 frames.

Definition decodeTextFromFrames (frames : list VideoFrame)
    : video_outcome jsstring :=
  match frames with
  | [] => VThrow NoFramesToDecode
  | frame0 :: _ =>
      match Legacy.decodeText (imageData frame0) with
      | Ok text => VOk text
      | Throw _ => VThrow NoMessageInVideo
      end
  end.

End Frames.

Arguments VOk {A} a.
Arguments VThrow {A} e.
Arguments mkVideoFrame {time}.
Arguments imageData {time}.
Arguments timestamp {time}.
Arguments calculateVideoCapacity {time}.
Arguments encodeTextInFrames {time}.
Arguments decodeTextFromFrames {time}.
Arguments map_frames {time}.

End Video.

(* ================================================================== *)
(** * Proofs *)
(* ================================================================== *)

(** Linear arithmetic with division and remainder by constants. *)
Ltac Zify.zify_post_hook ::= Z.to_euclidean_division_equations.

(** Settle the tests of a conditional by arithmetic, or split on an
    innermost one. *)
Ltac settle_tests :=
  repeat
    (cbn [utf8_run items_of app code_point bytes_seen bytes_needed
          lower_boundary upper_boundary fst snd];
     first
       [ match goal with
         | |- context [if ?c then _ else _] =>
             first [ replace c with true by lia | replace c with false by lia ]
         end
       | match goal with
         | |- context [if ?c then _ else _] =>
             lazymatch c with
             | context [if _ then _ else _] => fail
             | _ => destruct c eqn:?
             end
         end ]).

(** [current_format] on a concrete buffer, by running the header phase. *)
Ltac run_header :=
  eexists; split; [vm_compute; reflexivity|];
  split; [apply Nat.leb_le; vm_compute; reflexivity|];
  split; [vm_compute; reflexivity|];
  split; [vm_compute; reflexivity|];
  split; apply Z.leb_le; vm_compute; reflexivity.

(** ** Strings *)

Lemma str_eqb_eq (a b : jsstring) : str_eqb a b = true <-> a = b.
Proof.
  revert b; induction a as [|x a IH]; intros [|y b]; simpl; split; intro H;
    try reflexivity; try discriminate.
  - apply andb_true_iff in H as [Hx Hr]. apply Z.eqb_eq in Hx.
    apply IH in Hr. now subst.
  - injection H as -> ->. rewrite Z.eqb_refl. simpl. now apply IH.
Qed.

Lemma str_eqb_refl (a : jsstring) : str_eqb a a = true.
Proof. now apply str_eqb_eq. Qed.

Lemma endsWith_app (s suffix : jsstring) : endsWith (s ++ suffix) suffix = true.
Proof.
  unfold endsWith. rewrite length_app.
  replace (length s + length suffix - length suffix)%nat with (length s + 0)%nat by lia.
  rewrite skipn_app, Nat.add_0_r, skipn_all, Nat.sub_diag. simpl.
  rewrite str_eqb_refl, andb_true_r. apply Nat.leb_le. lia.
Qed.

Lemma endsWith_true (s suffix : jsstring) :
  endsWith s suffix = true -> s = slice_to_neg s (length suffix) ++ suffix.
Proof.
  unfold endsWith, slice_to_neg. intro H.
  apply andb_true_iff in H as [_ H]. apply str_eqb_eq in H.
  rewrite <- (firstn_skipn (length s - length suffix) s) at 1.
  f_equal. exact H.
Qed.

Lemma slice_to_neg_app (s suffix : jsstring) :
  slice_to_neg (s ++ suffix) (length suffix) = s.
Proof.
  unfold slice_to_neg. rewrite length_app.
  replace (length s + length suffix - length suffix)%nat with (length s + 0)%nat by lia.
  rewrite firstn_app_2. simpl. apply app_nil_r.
Qed.

(** ** Capacity *)

Lemma calculateCapacity_eq (w h : Z) :
  calculateCapacity w h = (w * h * 3 - 136) / 8.
Proof. unfold calculateCapacity. simpl. f_equal. lia. Qed.

(** C3 (as stated) fails: with zero width the capacity is -17, a negative
    number and not 0. *)
Lemma calculateCapacity_zero_width_negative :
  calculateCapacity 0 7 = -17 /\ ~ 0 <= calculateCapacity 0 7
  /\ calculateCapacity 7 0 <> 0.
Proof. repeat split; vm_compute; congruence. Qed.

(** C3 (amended): [calculateCapacity w h] is the floored quotient
    (3wh - 136) / 8 with no clamping; it is non-negative exactly when the
    raster offers at least the 136 overhead bits, and it is -17 whenever the
    width or the height is 0. *)
Theorem calculateCapacity_unclamped (w h : Z) :
  calculateCapacity w h = (w * h * 3 - 136) / 8
  /\ (0 <= calculateCapacity w h <-> 136 <= w * h * 3)
  /\ calculateCapacity 0 h = -17
  /\ calculateCapacity w 0 = -17.
Proof.
  rewrite !calculateCapacity_eq. split; [reflexivity|]. split; [split|split].
  - intro H. Z.div_mod_to_equations. lia.
  - intro H. apply Z.div_pos; lia.
  - now rewrite Z.mul_0_l.
  - now rewrite Z.mul_0_r.
Qed.

(** ** Binary digits of bytes *)

Lemma byte_ok_all : forallb byte_ok (map Z.of_nat (seq 0 256)) = true.
Proof. vm_compute. reflexivity. Qed.

Lemma byte_ok_spec (b : Z) : 0 <= b <= 255 -> byte_ok b = true.
Proof.
  intro Hb. pose proof byte_ok_all as H.
  rewrite forallb_forall in H. apply H.
  rewrite <- (Z2Nat.id b) by lia. apply in_map, in_seq. lia.
Qed.

Lemma byte_digits_length (b : Z) :
  0 <= b <= 255 -> length (padStart8 (toString2 b)) = 8%nat.
Proof.
  intro Hb. apply byte_ok_spec in Hb. unfold byte_ok in Hb.
  apply andb_true_iff in Hb as [Hb _]. apply andb_true_iff in Hb as [Hb _].
  now apply Nat.eqb_eq in Hb.
Qed.

Lemma byte_digits_parse (b : Z) :
  0 <= b <= 255 -> parseInt2 (padStart8 (toString2 b)) = b.
Proof.
  intro Hb. apply byte_ok_spec in Hb. unfold byte_ok in Hb.
  apply andb_true_iff in Hb as [Hb _]. apply andb_true_iff in Hb as [_ Hb].
  now apply Z.eqb_eq in Hb.
Qed.

Lemma byte_digits_01 (b : Z) :
  0 <= b <= 255 -> digits01 (padStart8 (toString2 b)).
Proof.
  intro Hb. apply byte_ok_spec in Hb. unfold byte_ok in Hb.
  apply andb_true_iff in Hb as [_ Hb]. rewrite forallb_forall in Hb.
  apply Forall_forall. intros d Hd. apply Hb in Hd.
  apply orb_true_iff in Hd as [Hd|Hd]; apply Z.eqb_eq in Hd; auto.
Qed.

Lemma bytes_to_binary_cons (b : Z) (bs : list Z) :
  bytes_to_binary (b :: bs) = padStart8 (toString2 b) ++ bytes_to_binary bs.
Proof. reflexivity. Qed.

Lemma bytes_to_binary_app (a b : list Z) :
  bytes_to_binary (a ++ b) = bytes_to_binary a ++ bytes_to_binary b.
Proof. apply flat_map_app. Qed.

Lemma bytes_to_binary_length (bs : list Z) :
  byte_list bs -> length (bytes_to_binary bs) = (8 * length bs)%nat.
Proof.
  induction 1 as [|b bs Hb _ IH]; [reflexivity|].
  rewrite bytes_to_binary_cons, length_app, byte_digits_length, IH by assumption.
  simpl. lia.
Qed.

Lemma bytes_to_binary_01 (bs : list Z) :
  byte_list bs -> digits01 (bytes_to_binary bs).
Proof.
  induction 1 as [|b bs Hb _ IH]; [constructor|].
  rewrite bytes_to_binary_cons. apply Forall_app. split; [|exact IH].
  now apply byte_digits_01.
Qed.

(** ** The embedding loop *)

Lemma skipn_cons_nth (k : nat) (l : list Z) (x : Z) (r : list Z) :
  skipn k l = x :: r -> nth k l 0 = x /\ skipn (S k) l = r.
Proof.
  revert l; induction k as [|k IH]; intros [|y l] H; simpl in H; try discriminate.
  - injection H as -> ->. now split.
  - apply IH in H. exact H.
Qed.

Lemma encode_loop_embed (binaryText data : list Z) (i k : nat) :
  encode_loop binaryText i data k = embed i data (skipn k binaryText).
Proof.
  revert i k; induction data as [|d rest IH]; intros i k; [reflexivity|].
  cbn [encode_loop embed].
  destruct (Nat.ltb_spec k (length binaryText)) as [Hk|Hk].
  - destruct (skipn k binaryText) as [|bit bits'] eqn:E.
    + apply (f_equal (@length Z)) in E. rewrite length_skipn in E. simpl in E. lia.
    + destruct (skipn_cons_nth _ _ _ _ E) as [Hn Hs].
      destruct ((i + 1) mod 4 =? 0)%nat.
      * now rewrite IH, E.
      * now rewrite IH, Hn, Hs.
  - now rewrite skipn_all2 by lia.
Qed.

Lemma embed_length (data bits : list Z) (i : nat) :
  length (embed i data bits) = length data.
Proof.
  revert i bits; induction data as [|d rest IH]; intros i bits; [reflexivity|].
  cbn [embed]. destruct bits as [|bit bits']; [reflexivity|].
  destruct ((i + 1) mod 4 =? 0)%nat; cbn [length]; now rewrite IH.
Qed.

Lemma embed_alpha (data bits : list Z) (i j : nat) :
  ((i + j) mod 4 = 3)%nat ->
  nth_error (embed i data bits) j = nth_error data j.
Proof.
  revert i bits j; induction data as [|d rest IH]; intros i bits j Hj;
    [reflexivity|].
  cbn [embed]. destruct bits as [|bit bits']; [reflexivity|].
  destruct (Nat.eqb_spec ((i + 1) mod 4) 0) as [Ha|Ha].
  - destruct j as [|j]; [reflexivity|]. cbn [nth_error]. apply IH.
    replace (S i + j)%nat with (i + S j)%nat by lia. exact Hj.
  - destruct j as [|j]; [exfalso; lia|]. cbn [nth_error]. apply IH.
    replace (S i + j)%nat with (i + S j)%nat by lia. exact Hj.
Qed.

Lemma encodeText_data (img out : ImageData) (text : jsstring) :
  encodeText img text = Ok out ->
  width out = width img /\ height out = height img /\
  data out =
    embed 0 (data img)
      (bytes_to_binary
         (TextEncoder_encode MAGIC_HEADER
          ++ setUint32 (Z.of_nat (length (TextEncoder_encode (text ++ DELIMITER))))
          ++ TextEncoder_encode (text ++ DELIMITER))).
Proof.
  unfold encodeText.
  destruct (_ >? _); [discriminate|]. intro H. injection H as <-. simpl.
  now rewrite encode_loop_embed.
Qed.

(** C8: whenever [encodeText] returns a buffer, each sample at an index
    congruent to 3 modulo 4 (the alpha channel) is the sample of the input
    raster at that index; the output has as many samples as the input. *)
Theorem encodeText_preserves_alpha (img out : ImageData) (text : jsstring) (i : nat) :
  encodeText img text = Ok out ->
  (i mod 4 = 3)%nat ->
  nth_error (data out) i = nth_error (data img) i
  /\ length (data out) = length (data img).
Proof.
  intros H Hi. apply encodeText_data in H as (_ & _ & ->).
  split; [now apply embed_alpha | apply embed_length].
Qed.

Lemma encodeText_preserves_alpha_witness :
  exists out,
    encodeText (blank 8 8 200) (str "hi"%string) = Ok out
    /\ nth_error (data out) 7 = Some 200
    /\ nth_error (data out) 1 = Some 201.
Proof.
  eexists. split; [reflexivity|]. split.
  - refine (eq_trans (proj1 (encodeText_preserves_alpha
              (blank 8 8 200) _ (str "hi"%string) 7 eq_refl eq_refl)) _).
    reflexivity.
  - reflexivity.
Defined.

(** ** TextEncoder on ASCII text *)

Lemma code_points_ascii (s : jsstring) : ascii_text s -> code_points s = s.
Proof.
  induction 1 as [|c s Hc _ IH]; [reflexivity|].
  cbn [code_points]. unfold is_high, is_low.
  destruct (Z.leb_spec 0xD800 c); [lia|].
  destruct (Z.leb_spec 0xDC00 c); [lia|].
  cbn [andb]. now rewrite IH.
Qed.

Lemma utf8_encode_ascii (s : list Z) :
  ascii_text s -> flat_map utf8_encode_cp s = s.
Proof.
  induction 1 as [|c s Hc _ IH]; [reflexivity|].
  cbn [flat_map]. rewrite IH. unfold utf8_encode_cp.
  destruct (Z.leb_spec c 0x7F); [reflexivity|lia].
Qed.

Lemma TextEncoder_encode_ascii (s : jsstring) :
  ascii_text s -> TextEncoder_encode s = s.
Proof.
  intro H. unfold TextEncoder_encode.
  now rewrite code_points_ascii, utf8_encode_ascii.
Qed.

Lemma ascii_text_bytes (s : jsstring) : ascii_text s -> byte_list s.
Proof. apply Forall_impl. intros; lia. Qed.

Lemma DELIMITER_ascii : ascii_text DELIMITER.
Proof. repeat constructor; lia. Qed.

Lemma MAGIC_HEADER_ascii : ascii_text MAGIC_HEADER.
Proof. repeat constructor; lia. Qed.

Lemma setUint32_bytes (n : Z) : byte_list (setUint32 n).
Proof. unfold setUint32. repeat constructor; lia. Qed.

(** The bits [encodeText] needs for an ASCII text. *)
Lemma encodeText_ascii_bits (text : jsstring) :
  ascii_text text ->
  length
    (bytes_to_binary
       (TextEncoder_encode MAGIC_HEADER
        ++ setUint32 (Z.of_nat (length (TextEncoder_encode (text ++ DELIMITER))))
        ++ TextEncoder_encode (text ++ DELIMITER)))
  = (8 * (length text + 17))%nat.
Proof.
  intro H.
  assert (Ha : ascii_text (text ++ DELIMITER))
    by (apply Forall_app; split; [exact H | exact DELIMITER_ascii]).
  rewrite (TextEncoder_encode_ascii _ Ha),
    (TextEncoder_encode_ascii _ MAGIC_HEADER_ascii).
  rewrite bytes_to_binary_length.
  - rewrite !length_app. cbn [length setUint32 MAGIC_HEADER DELIMITER]. lia.
  - apply Forall_app. split; [apply ascii_text_bytes, MAGIC_HEADER_ascii|].
    apply Forall_app. split; [apply setUint32_bytes|].
    now apply ascii_text_bytes.
Qed.

(** C6: on a 10x10 raster the capacity is 20; [encodeText] returns a buffer
    for every ASCII text of 20 characters and throws the capacity error
    (reporting 20 characters) for every ASCII text of 21 characters. *)
Theorem encodeText_10x10 (img : ImageData) (text : jsstring) :
  width img = 10 -> height img = 10 -> ascii_text text ->
  calculateCapacity (width img) (height img) = 20
  /\ (length text = 20%nat -> exists out, encodeText img text = Ok out)
  /\ (length text = 21%nat ->
      encodeText img text = Throw (CapacityExceeded 20)).
Proof.
  intros Hw Hh Ha. rewrite Hw, Hh. split; [reflexivity|].
  pose proof (encodeText_ascii_bits text Ha) as Hbits.
  unfold encodeText. rewrite Hbits, Hw, Hh. split; intro Hl; rewrite Hl.
  - eexists. reflexivity.
  - reflexivity.
Qed.

Lemma encodeText_10x10_witness :
  calculateCapacity 10 10 = 20
  /\ (exists out, encodeText (blank 10 10 0) (repeat 97 20) = Ok out)
  /\ encodeText (blank 10 10 0) (repeat 97 21) = Throw (CapacityExceeded 20).
Proof.
  assert (Ha : forall n, ascii_text (repeat 97 n))
    by (intro n; apply Forall_forall; intros c Hc;
        apply repeat_spec in Hc; subst c; lia).
  split; [|split].
  - exact (proj1 (encodeText_10x10 (blank 10 10 0) (repeat 97 20)
                    eq_refl eq_refl (Ha 20%nat))).
  - exact (proj1 (proj2 (encodeText_10x10 (blank 10 10 0) (repeat 97 20)
                    eq_refl eq_refl (Ha 20%nat))) eq_refl).
  - exact (proj2 (proj2 (encodeText_10x10 (blank 10 10 0) (repeat 97 21)
                    eq_refl eq_refl (Ha 21%nat))) eq_refl).
Defined.

(** ** The extraction loop and the chunking of binary strings *)

Lemma extract_loop_spec (limit : Z) (data binaryText : list Z) (i : nat) :
  extract_loop limit i data binaryText
  = binaryText
    ++ firstn (Z.to_nat limit - length binaryText)
         (map (fun d => Z.land d 1) (non_alpha i data)).
Proof.
  revert i binaryText; induction data as [|d rest IH]; intros i bt.
  - cbn [extract_loop non_alpha map]. now rewrite firstn_nil, app_nil_r.
  - cbn [extract_loop non_alpha].
    destruct (Z.ltb_spec (Z.of_nat (length bt)) limit) as [Hl|Hl].
    + destruct ((i + 1) mod 4 =? 0)%nat; rewrite IH; [reflexivity|].
      rewrite length_app. cbn [length map].
      replace (Z.to_nat limit - length bt)%nat
        with (S (Z.to_nat limit - (length bt + 1)))%nat by lia.
      cbn [firstn]. now rewrite <- app_assoc.
    + replace (Z.to_nat limit - length bt)%nat with 0%nat by lia.
      cbn [firstn]. now rewrite app_nil_r.
Qed.

Lemma extract_loop_stream (limit : Z) (data : list Z) :
  extract_loop limit 0 data [] = firstn (Z.to_nat limit) (lsb_stream data).
Proof.
  rewrite extract_loop_spec. cbn [app length]. now rewrite Nat.sub_0_r.
Qed.

Lemma chunks8_nil_inv (s cur : list Z) :
  chunks8 cur s = [] -> cur = [] /\ s = [].
Proof.
  revert cur; induction s as [|c rest IH]; intros cur H; cbn [chunks8] in H.
  - destruct cur; [now split | discriminate].
  - destruct (length (cur ++ [c]) =? 8)%nat; [discriminate|].
    apply IH in H as [H _]. now destruct cur.
Qed.

Lemma match8_some (s : list Z) :
  s <> [] -> match8 s = Some (chunks8 [] s).
Proof.
  intro Hs. unfold match8. destruct (chunks8 [] s) eqn:E; [|reflexivity].
  apply chunks8_nil_inv in E as [_ E]. contradiction.
Qed.

Lemma match8_inv (s : list Z) (l : list (list Z)) :
  match8 s = Some l -> l = chunks8 [] s /\ s <> [].
Proof.
  unfold match8. intro H. destruct (chunks8 [] s) eqn:E; [discriminate|].
  injection H as <-. split; [reflexivity|]. intros ->. discriminate.
Qed.

Lemma chunks8_fill (c cur rest : list Z) :
  c <> [] -> (length cur + length c = 8)%nat ->
  chunks8 cur (c ++ rest) = (cur ++ c) :: chunks8 [] rest.
Proof.
  revert cur; induction c as [|x c IH]; intros cur Hc Hl; [contradiction|].
  cbn [app chunks8]. rewrite length_app.
  destruct c as [|y c]; cbn [length] in *.
  - replace (length cur + 1 =? 8)%nat with true
      by (symmetry; apply Nat.eqb_eq; lia).
    reflexivity.
  - replace (length cur + 1 =? 8)%nat with false
      by (symmetry; apply Nat.eqb_neq; lia).
    rewrite IH; [|discriminate|rewrite length_app; cbn [length]; lia].
    now rewrite <- app_assoc.
Qed.

Lemma chunks8_short (t cur : list Z) :
  (length cur + length t < 8)%nat ->
  chunks8 cur t = match cur ++ t with [] => [] | l => [l] end.
Proof.
  revert cur; induction t as [|x t IH]; intros cur Hl.
  - cbn [chunks8]. rewrite app_nil_r. now destruct cur.
  - cbn [chunks8]. rewrite length_app. cbn [length] in *.
    replace (length cur + 1 =? 8)%nat with false
      by (symmetry; apply Nat.eqb_neq; lia).
    rewrite IH by (rewrite length_app; cbn [length]; lia).
    now rewrite <- app_assoc.
Qed.

Lemma chunks8_bytes (bs tail : list Z) :
  byte_list bs ->
  chunks8 [] (bytes_to_binary bs ++ tail)
  = map (fun b => padStart8 (toString2 b)) bs ++ chunks8 [] tail.
Proof.
  induction 1 as [|b bs Hb _ IH]; [reflexivity|].
  rewrite bytes_to_binary_cons, <- app_assoc.
  pose proof (byte_digits_length b Hb) as Hl.
  rewrite chunks8_fill; [|intros E; rewrite E in Hl; discriminate|exact Hl].
  cbn [app map]. now rewrite IH.
Qed.

Lemma chunks8_Forall (P : Z -> Prop) (s cur : list Z) :
  Forall P cur -> Forall P s -> Forall (Forall P) (chunks8 cur s).
Proof.
  revert cur; induction s as [|c rest IH]; intros cur Hc Hs; cbn [chunks8].
  - destruct cur; [constructor|]. constructor; [assumption|constructor].
  - inversion Hs as [|? ? Hx Hr]; subst.
    assert (Forall P (cur ++ [c])) by (apply Forall_app; split; auto).
    destruct (length (cur ++ [c]) =? 8)%nat.
    + constructor; [assumption|]. apply IH; [constructor|assumption].
    + apply IH; assumption.
Qed.

Lemma chunks8_length (s cur : list Z) :
  (length cur < 8)%nat ->
  length (chunks8 cur s) = ((length cur + length s + 7) / 8)%nat.
Proof.
  revert cur; induction s as [|c rest IH]; intros cur Hl; cbn [chunks8].
  - destruct cur as [|x cur]; [reflexivity|]. cbn [length] in *. lia.
  - rewrite length_app. cbn [length].
    destruct (Nat.eqb_spec (length cur + 1) 8) as [E|E].
    + cbn [length]. rewrite IH by (cbn [length]; lia). cbn [length]. lia.
    + rewrite IH by (rewrite length_app; cbn [length]; lia).
      rewrite length_app. cbn [length]. lia.
Qed.

Lemma parseInt2_range (c : list Z) :
  digits01 c -> (length c <= 8)%nat -> 0 <= parseInt2 c <= 255.
Proof.
  unfold parseInt2. intros Hd Hl.
  assert (G : forall c acc n, digits01 c -> (length c <= n)%nat ->
              0 <= acc ->
              0 <= fold_left (fun a d => 2 * a + d) c acc
                <= (acc + 1) * 2 ^ Z.of_nat n - 1).
  { clear. induction c as [|d c IH]; intros acc n Hd Hl Hacc; cbn [fold_left].
    - assert (0 < 2 ^ Z.of_nat n) by (apply Z.pow_pos_nonneg; lia). nia.
    - inversion Hd as [|? ? Hx Hr]; subst. cbn [length] in Hl.
      destruct n as [|n]; [lia|].
      specialize (IH (2 * acc + d) n Hr ltac:(lia) ltac:(lia)).
      rewrite Nat2Z.inj_succ, Z.pow_succ_r by lia.
      assert (0 < 2 ^ Z.of_nat n) by (apply Z.pow_pos_nonneg; lia). nia. }
  specialize (G c 0 8%nat Hd Hl ltac:(lia)).
  change ((0 + 1) * 2 ^ Z.of_nat 8 - 1) with 255 in G. exact G.
Qed.

(** ** The current-format path of [decodeText] *)

Lemma Uint8Array_bytes (xs : list Z) : byte_list (Uint8Array xs).
Proof.
  unfold Uint8Array. apply Forall_forall. intros x Hx.
  apply in_map_iff in Hx as (y & <- & _). lia.
Qed.

Lemma nth_byte (l : list Z) (k : nat) : byte_list l -> 0 <= nth k l 0 <= 255.
Proof.
  intro H. destruct (Nat.lt_ge_cases k (length l)) as [Hk|Hk].
  - apply (proj1 (Forall_forall _ l) H). now apply nth_In.
  - rewrite nth_overflow by assumption. lia.
Qed.

Lemma getUint32_nonneg (bs : list Z) : byte_list bs -> 0 <= getUint32 bs.
Proof.
  intro H. unfold getUint32.
  pose proof (nth_byte bs 0 H). pose proof (nth_byte bs 1 H).
  pose proof (nth_byte bs 2 H). pose proof (nth_byte bs 3 H). lia.
Qed.

Lemma messageLength_of_nonneg (extractedBytes : list Z) :
  0 <= messageLength_of extractedBytes.
Proof. apply getUint32_nonneg, Uint8Array_bytes. Qed.

(** On the current-format path [decodeText] returns the lossy decoding of the
    selected payload bytes, less one trailing delimiter. *)
Lemma current_format_decode (img : ImageData) (L : Z) :
  current_format img L ->
  messageByteStrings_of img L = Some (payload_chunks img L)
  /\ decodeText img = Ok (finish_message (payload_bytes img L)).
Proof.
  intros (hb & Hh & Hlen & Hmagic & HL & Hmax & Hcap).
  assert (Hpos : 0 <= L) by (rewrite <- HL; apply messageLength_of_nonneg).
  assert (Hsome : messageByteStrings_of img L = Some (payload_chunks img L)).
  { unfold payload_chunks, messageByteStrings_of.
    unfold header_chunks in Hh. apply match8_inv in Hh as [_ Hne].
    rewrite extract_loop_stream in *.
    rewrite match8_some; [reflexivity|].
    destruct (lsb_stream (data img)) as [|b bits].
    - now rewrite firstn_nil in Hne.
    - replace (Z.to_nat ((Z.of_nat headerSize + L) * 8))
        with (S (Z.to_nat ((Z.of_nat headerSize + L) * 8) - 1))
        by (unfold headerSize; cbn [length MAGIC_HEADER]; lia).
      discriminate. }
  split; [exact Hsome|].
  unfold decodeText. rewrite Hh.
  replace (length hb <? headerSize)%nat with false
    by (symmetry; apply Nat.ltb_ge; exact Hlen).
  rewrite Hmagic, str_eqb_refl. cbn [negb]. rewrite HL.
  replace (L >? maxPossibleLength img) with false
    by (symmetry; rewrite Z.gtb_ltb; apply Z.ltb_ge; exact Hmax).
  replace (L >? 10000000) with false
    by (symmetry; rewrite Z.gtb_ltb; apply Z.ltb_ge; exact Hcap).
  cbn [orb]. unfold payload_bytes. now rewrite Hsome.
Qed.

(** C9: on the current-format path, a decoded payload string that does not
    end with the delimiter is returned unchanged, and one that ends with the
    delimiter is returned with exactly that one trailing occurrence removed. *)
Theorem decodeText_delimiter_advisory (img : ImageData) (L : Z) :
  current_format img L ->
  let message := TextDecoder_decode (payload_bytes img L) in
  (endsWith message DELIMITER = false -> decodeText img = Ok message)
  /\ (forall s, message = s ++ DELIMITER -> decodeText img = Ok s).
Proof.
  intros H message. apply current_format_decode in H as [_ ->].
  unfold finish_message. fold message. split.
  - now intros ->.
  - intros s Hs. rewrite Hs, endsWith_app. now rewrite slice_to_neg_app.
Qed.

(** ** Decoding failures of the payload *)

Lemma all_decoded_none (items : list (option Z)) :
  all_decoded items = None -> In None items.
Proof.
  induction items as [|[cp|] items IH]; cbn [all_decoded]; intro H.
  - discriminate.
  - right. apply IH. now destruct (all_decoded items).
  - now left.
Qed.

Lemma TextDecoder_decode_replacement (bs : list Z) :
  valid_utf8 bs = false -> In 0xFFFD (TextDecoder_decode bs).
Proof.
  unfold valid_utf8, TextDecoder_decode. intro H.
  destruct (all_decoded (utf8_run utf8_init bs)) eqn:E; [discriminate|].
  apply all_decoded_none in E.
  apply (in_map replacement) in E. cbn [replacement] in E.
  apply in_flat_map. exists 0xFFFD. split; [|now left].
  destruct (map replacement (utf8_run utf8_init bs)) as [|cp cps];
    [contradiction|].
  cbn [strip_bom]. destruct (Z.eqb_spec cp 0xFEFF) as [->|_]; [|exact E].
  destruct E as [E|E]; [discriminate|exact E].
Qed.

Lemma finish_message_replacement (bs : list Z) :
  valid_utf8 bs = false -> In 0xFFFD (finish_message bs).
Proof.
  intro H. apply TextDecoder_decode_replacement in H.
  unfold finish_message.
  destruct (endsWith (TextDecoder_decode bs) DELIMITER) eqn:E; [|exact H].
  apply endsWith_true in E. rewrite E in H.
  apply in_app_or in H as [H|H]; [exact H|].
  exfalso. unfold DELIMITER in H. cbn [In] in H.
  repeat (destruct H as [H|H]; [discriminate|]). contradiction.
Qed.

Lemma img_no_delimiter_current : current_format img_no_delimiter 2.
Proof. run_header. Qed.

Lemma img_with_delimiter_current : current_format img_with_delimiter 9.
Proof. run_header. Qed.

Lemma img_invalid_utf8_current : current_format img_invalid_utf8 1.
Proof. run_header. Qed.

Lemma img_truncated_current : current_format img_truncated 12.
Proof. run_header. Qed.

Lemma decodeText_delimiter_advisory_witness :
  decodeText img_no_delimiter = Ok (str "hi"%string)
  /\ decodeText img_with_delimiter = Ok (str "hi"%string).
Proof.
  split.
  - apply (proj1 (decodeText_delimiter_advisory img_no_delimiter 2
                    img_no_delimiter_current)).
    vm_compute. reflexivity.
  - apply (proj2 (decodeText_delimiter_advisory img_with_delimiter 9
                    img_with_delimiter_current)).
    vm_compute. reflexivity.
Defined.

(** C2 (as stated) fails: the frame of [img_invalid_utf8] is on the
    current-format path with validated length 1, its payload byte 0xFF is not
    valid UTF-8, and [decodeText] returns the string U+FFFD instead of
    failing. *)
Lemma decodeText_invalid_utf8_returns :
  current_format img_invalid_utf8 1
  /\ payload_bytes img_invalid_utf8 1 = [0xFF]
  /\ valid_utf8 [0xFF] = false
  /\ decodeText img_invalid_utf8 = Ok [0xFFFD].
Proof.
  split; [exact img_invalid_utf8_current|].
  repeat split; vm_compute; reflexivity.
Qed.

(** C2 (amended): on the current-format path, payload bytes that are not
    valid UTF-8 do not make [decodeText] fail: it returns the decoding in which
    each invalid sequence is replaced by U+FFFD (less one trailing delimiter),
    so the returned string contains U+FFFD. *)
Theorem decodeText_invalid_utf8_replaced (img : ImageData) (L : Z) :
  current_format img L ->
  valid_utf8 (payload_bytes img L) = false ->
  decodeText img = Ok (finish_message (payload_bytes img L))
  /\ In 0xFFFD (finish_message (payload_bytes img L)).
Proof.
  intros H Hv. split.
  - now apply current_format_decode.
  - now apply finish_message_replacement.
Qed.

Lemma decodeText_invalid_utf8_replaced_witness :
  decodeText img_invalid_utf8
  = Ok (finish_message (payload_bytes img_invalid_utf8 1))
  /\ In 0xFFFD (finish_message (payload_bytes img_invalid_utf8 1)).
Proof.
  apply (decodeText_invalid_utf8_replaced img_invalid_utf8 1).
  - exact img_invalid_utf8_current.
  - vm_compute. reflexivity.
Defined.

(** C4 (the code at the failing input): [img_truncated] offers 96 bits, its
    header declares 12 payload bytes and passes both ceilings (the buffer
    ceiling is 12), so 176 bits are asked for; [decodeText] selects only the
    2 chunks that exist after the header and returns ["hi"]. *)
Lemma decodeText_truncated_payload :
  length (lsb_stream (data img_truncated)) = 96%nat
  /\ current_format img_truncated 12
  /\ maxPossibleLength img_truncated = 12
  /\ length (payload_chunks img_truncated 12) = 2%nat
  /\ decodeText img_truncated = Ok (str "hi"%string).
Proof.
  split; [vm_compute; reflexivity|].
  split; [exact img_truncated_current|].
  repeat split; vm_compute; reflexivity.
Qed.

(** C5 (the code at the failing input): [img_short_header] offers 75 bits,
    fewer than the 80 of a header; the 3 trailing bits count as a tenth
    chunk, the magic token matches, the length reads 0 and [decodeText]
    returns the empty string. *)
Lemma decodeText_short_header_accepted :
  length (lsb_stream (data img_short_header)) = 75%nat
  /\ (exists chunks, header_chunks img_short_header = Some chunks
                     /\ length chunks = 10%nat
                     /\ nth 9 chunks [] = [0; 0; 0])
  /\ decodeText img_short_header = Ok [].
Proof.
  split; [vm_compute; reflexivity|]. split.
  - eexists. split; [vm_compute; reflexivity|]. split; reflexivity.
  - vm_compute. reflexivity.
Qed.

(** With at most 72 usable bits the header check does reject the buffer. *)
Lemma decodeText_below_73_bits (img : ImageData) :
  (length (lsb_stream (data img)) <= 72)%nat ->
  decodeText img = Throw NoMessageFound.
Proof.
  intro Hl. unfold decodeText.
  destruct (header_chunks img) as [hb|] eqn:Hh; [|reflexivity].
  unfold header_chunks in Hh. apply match8_inv in Hh as [-> _].
  rewrite chunks8_length by (cbn [length]; lia).
  rewrite extract_loop_stream, length_firstn.
  replace (_ <? headerSize)%nat with true; [reflexivity|].
  symmetry. apply Nat.ltb_lt. unfold headerSize. cbn [length MAGIC_HEADER]. lia.
Qed.

(** ** The legacy scan *)

Lemma lsb_01 (d : Z) : Z.land d 1 = 0 \/ Z.land d 1 = 1.
Proof.
  change 1 with (Z.ones 1) at 1 2. rewrite Z.land_ones by lia.
  change (2 ^ 1) with 2. lia.
Qed.

Lemma legacy_char_ok_all :
  forallb legacy_char_ok (map Z.of_nat (seq 1 255)) = true.
Proof. vm_compute. reflexivity. Qed.

Lemma legacy_char_nonzero (b : Z) : 1 <= b <= 255 -> legacy_char b = [b].
Proof.
  intro Hb. pose proof legacy_char_ok_all as H.
  rewrite forallb_forall in H. apply str_eqb_eq. apply H.
  rewrite <- (Z2Nat.id b) by lia. apply in_map, in_seq. lia.
Qed.

Lemma legacy_char_zero : legacy_char 0 = [].
Proof. reflexivity. Qed.

Lemma legacy_char_no_zero (b : Z) : 0 <= b <= 255 -> ~ In 0 (legacy_char b).
Proof.
  intros Hb Hin. destruct (Z.eq_dec b 0) as [->|Hne].
  - exact Hin.
  - rewrite legacy_char_nonzero in Hin by lia. destruct Hin as [Hin|[]]. lia.
Qed.

Lemma parseInt2_zeros (c : list Z) : Forall (fun d => d = 0) c -> parseInt2 c = 0.
Proof.
  unfold parseInt2. induction 1 as [|d c Hd _ IH]; [reflexivity|].
  subst d. exact IH.
Qed.

Lemma in_firstn {A} (x : A) (n : nat) (l : list A) :
  In x (firstn n l) -> In x l.
Proof.
  intro H. rewrite <- (firstn_skipn n l). apply in_or_app. now left.
Qed.

Lemma slice_last_length {A} (l : list A) (n : nat) :
  (length (slice_last l n) <= n)%nat.
Proof. unfold slice_last. rewrite length_skipn. lia. Qed.

Lemma slice_last_Forall {A} (P : A -> Prop) (l : list A) (n : nat) :
  Forall P l -> Forall P (slice_last l n).
Proof.
  intro H. unfold slice_last. rewrite <- (firstn_skipn (length l - n) l) in H.
  now apply Forall_app in H as [_ H].
Qed.

(** On a buffer of zero samples the scan accumulates nothing and runs out of
    data. *)
Lemma legacy_loop_zeros (data binaryText : list Z) (i : nat) :
  Forall (fun d => d = 0) data ->
  Forall (fun d => d = 0) binaryText ->
  legacy_loop i data binaryText [] = Throw NoMessageFound.
Proof.
  intro Hd. revert i binaryText.
  induction Hd as [|d rest Hz _ IH]; intros i bt Hbt; [reflexivity|].
  subst d. cbn [legacy_loop].
  destruct ((i + 1) mod 4 =? 0)%nat; [now apply IH|].
  assert (Hbt' : Forall (fun d => d = 0) (bt ++ [Z.land 0 1]))
    by (apply Forall_app; split; [exact Hbt | now repeat constructor]).
  destruct (length (bt ++ [Z.land 0 1]) mod 8 =? 0)%nat; [|now apply IH].
  rewrite parseInt2_zeros by now apply slice_last_Forall.
  rewrite legacy_char_zero. cbn [app].
  change (endsWith [] DELIMITER) with false.
  change (Z.of_nat (@length Z []) >? 1000000) with false.
  now apply IH.
Qed.

(** The text returned by the scan never holds the character U+0000. *)
Lemma legacy_loop_no_zero (data binaryText : list Z) (i : nat) (text s : jsstring) :
  digits01 binaryText -> ~ In 0 text ->
  legacy_loop i data binaryText text = Ok s -> ~ In 0 s.
Proof.
  revert i binaryText text; induction data as [|d rest IH];
    intros i bt text Hbt Ht; cbn [legacy_loop]; [discriminate|].
  destruct ((i + 1) mod 4 =? 0)%nat; [now apply IH|].
  assert (Hbt' : digits01 (bt ++ [Z.land d 1])).
  { apply Forall_app. split; [exact Hbt|]. constructor; [apply lsb_01|constructor]. }
  destruct (length (bt ++ [Z.land d 1]) mod 8 =? 0)%nat; [|now apply IH].
  set (charCode := parseInt2 (slice_last (bt ++ [Z.land d 1]) 8)).
  assert (Hc : 0 <= charCode <= 255).
  { apply parseInt2_range; [now apply slice_last_Forall | apply slice_last_length]. }
  assert (Ht' : ~ In 0 (text ++ legacy_char charCode)).
  { intro Hin. apply in_app_or in Hin as [Hin|Hin]; [now apply Ht|].
    now apply (legacy_char_no_zero charCode Hc). }
  destruct (endsWith (text ++ legacy_char charCode) DELIMITER).
  - intro H. injection H as <-. intro Hin. apply Ht'.
    unfold slice_to_neg in Hin. now apply in_firstn in Hin.
  - destruct (_ >? 1000000); [discriminate|]. now apply IH.
Qed.

Lemma lsb_stream_zeros (data : list Z) :
  Forall (fun d => d = 0) data -> Forall (fun d => d = 0) (lsb_stream data).
Proof.
  unfold lsb_stream. generalize 0%nat. intros i H. revert i.
  induction H as [|d rest Hz _ IH]; intro i; cbn [non_alpha map]; [constructor|].
  destruct ((i + 1) mod 4 =? 0)%nat; [apply IH|].
  cbn [map]. constructor; [now subst d | apply IH].
Qed.

Lemma firstn_Forall {A} (P : A -> Prop) (n : nat) (l : list A) :
  Forall P l -> Forall P (firstn n l).
Proof.
  intro H. rewrite <- (firstn_skipn n l) in H. now apply Forall_app in H as [H _].
Qed.

Lemma all_zero_repeat (l : list Z) :
  Forall (fun d => d = 0) l -> l = repeat 0 (length l).
Proof. induction 1 as [|d l -> _ IH]; [reflexivity|]. cbn. now rewrite <- IH. Qed.

Lemma decodeText_zeros (img : ImageData) :
  Forall (fun d => d = 0) (data img) -> decodeText img = Throw NoMessageFound.
Proof.
  intro Hz. unfold decodeText.
  destruct (header_chunks img) as [hb|] eqn:Hh; [|reflexivity].
  destruct (Nat.ltb_spec (length hb) headerSize) as [Hl|Hl]; [reflexivity|].
  assert (Hbytes : extractedBytes_of hb = repeat 0 10).
  { unfold header_chunks in Hh. apply match8_inv in Hh as [-> _].
    rewrite extract_loop_stream in *.
    unfold extractedBytes_of.
    set (chunks := chunks8 [] _) in *.
    assert (Hc : Forall (Forall (fun d => d = 0)) chunks).
    { apply chunks8_Forall; [constructor|].
      now apply firstn_Forall, lsb_stream_zeros. }
    assert (Hm : Forall (fun b => b = 0) (map parseInt2 (firstn headerSize chunks))).
    { apply Forall_forall. intros b Hb. apply in_map_iff in Hb as (c & <- & Hc').
      apply parseInt2_zeros. apply in_firstn in Hc'.
      exact (proj1 (Forall_forall _ _) Hc c Hc'). }
    apply all_zero_repeat in Hm. rewrite Hm. f_equal.
    rewrite length_map, length_firstn. unfold headerSize in *.
    cbn [length MAGIC_HEADER] in *. lia. }
  rewrite Hbytes.
  change (negb (str_eqb (magic_of (repeat 0 10)) MAGIC_HEADER)) with true.
  cbv iota. unfold decodeLegacyFormat.
  apply legacy_loop_zeros; [exact Hz | constructor].
Qed.

(** ** UTF-8: decoding what the encoder produced *)

Lemma utf8_run_encode_cp (cp : Z) (rest : list Z) :
  scalar cp ->
  utf8_run utf8_init (utf8_encode_cp cp ++ rest)
  = Some cp :: utf8_run utf8_init rest.
Proof.
  intro Hs. unfold scalar in Hs. unfold utf8_encode_cp.
  destruct (Z.leb_spec cp 0x7F);
    [|destruct (Z.leb_spec cp 0x7FF); [|destruct (Z.leb_spec cp 0xFFFF)]];
    cbn [app utf8_run]; unfold utf8_lead, utf8_init; settle_tests;
    try reflexivity; f_equal; f_equal; lia.
Qed.

Lemma utf8_run_encode (cps : list Z) :
  Forall scalar cps ->
  utf8_run utf8_init (flat_map utf8_encode_cp cps) = map Some cps.
Proof.
  induction 1 as [|cp cps Hcp _ IH]; [reflexivity|].
  cbn [flat_map map]. now rewrite utf8_run_encode_cp, IH.
Qed.

Lemma utf8_encode_cp_bytes (cp : Z) : scalar cp -> byte_list (utf8_encode_cp cp).
Proof.
  unfold scalar, utf8_encode_cp. intro Hs.
  destruct (Z.leb_spec cp 0x7F);
    [|destruct (Z.leb_spec cp 0x7FF); [|destruct (Z.leb_spec cp 0xFFFF)]];
    repeat constructor; lia.
Qed.

(** ** UTF-16: strings and their scalar values *)

Lemma length_induction {A} (P : list A -> Prop) :
  (forall l, (forall l', (length l' < length l)%nat -> P l') -> P l) ->
  forall l, P l.
Proof.
  intros step l.
  assert (G : forall n l, (length l < n)%nat -> P l).
  { induction n as [|n IH]; intros l' Hl; [lia|].
    apply step. intros l'' Hl''. apply IH. lia. }
  apply (G (S (length l))). lia.
Qed.

Lemma code_points_scalar (s : jsstring) :
  is_string s -> Forall scalar (code_points s).
Proof.
  induction s as [s IH] using length_induction. intro Hs.
  destruct s as [|c rest]; [constructor|].
  inversion Hs as [|? ? Hc Hrest]; subst.
  cbn [code_points]. unfold is_high, is_low, scalar in *.
  destruct ((0xD800 <=? c) && (c <=? 0xDBFF)) eqn:Eh.
  - destruct rest as [|d rest']; [repeat constructor; lia|].
    inversion Hrest as [|? ? Hd Hrest']; subst.
    destruct ((0xDC00 <=? d) && (d <=? 0xDFFF)) eqn:El.
    + constructor; [lia|]. apply IH; [cbn [length]; lia | exact Hrest'].
    + constructor; [lia|]. apply IH; [cbn [length]; lia | exact Hrest].
  - destruct ((0xDC00 <=? c) && (c <=? 0xDFFF)) eqn:El.
    + constructor; [lia|]. apply IH; [cbn [length]; lia | exact Hrest].
    + constructor; [lia|]. apply IH; [cbn [length]; lia | exact Hrest].
Qed.

Lemma code_points_utf16 (s : jsstring) :
  is_string s -> well_formed s ->
  flat_map utf16_encode_cp (code_points s) = s.
Proof.
  induction s as [s IH] using length_induction. intros Hs Hw.
  destruct s as [|c rest]; [reflexivity|].
  inversion Hs as [|? ? Hc Hrest]; subst.
  cbn [code_points well_formed] in *. unfold is_high, is_low in *.
  destruct ((0xD800 <=? c) && (c <=? 0xDBFF)) eqn:Eh.
  - destruct rest as [|d rest']; [contradiction|].
    destruct Hw as [Hd Hw]. rewrite Hd.
    inversion Hrest as [|? ? Hd' Hrest']; subst.
    cbn [flat_map]. rewrite IH; [|cbn [length]; lia|assumption|assumption].
    unfold utf16_encode_cp.
    replace (_ <=? 0xFFFF) with false by lia.
    cbn [app]. f_equal; [lia|]. f_equal. lia.
  - destruct Hw as [Hl Hw]. rewrite Hl.
    cbn [flat_map]. rewrite IH; [|cbn [length]; lia|assumption|assumption].
    unfold utf16_encode_cp. replace (c <=? 0xFFFF) with true by lia.
    reflexivity.
Qed.

Lemma code_points_app (a b : jsstring) :
  well_formed a -> code_points (a ++ b) = code_points a ++ code_points b.
Proof.
  induction a as [a IH] using length_induction. intro Hw.
  destruct a as [|c rest]; [reflexivity|].
  cbn [code_points well_formed app] in *.
  destruct (is_high c).
  - destruct rest as [|d rest']; [contradiction|].
    destruct Hw as [Hd Hw]. cbn [app]. rewrite Hd.
    rewrite IH; [reflexivity | cbn [length]; lia | assumption].
  - destruct Hw as [Hl Hw]. rewrite Hl.
    rewrite IH; [reflexivity | cbn [length]; lia | assumption].
Qed.

Lemma well_formed_app (a b : jsstring) :
  well_formed a -> well_formed b -> well_formed (a ++ b).
Proof.
  induction a as [a IH] using length_induction. intros Ha Hb.
  destruct a as [|c rest]; [exact Hb|].
  cbn [well_formed app] in *.
  destruct (is_high c).
  - destruct rest as [|d rest']; [contradiction|].
    destruct Ha as [Hd Ha]. cbn [app]. split; [exact Hd|].
    apply IH; [cbn [length]; lia | assumption | assumption].
  - destruct Ha as [Hl Ha]. split; [exact Hl|].
    apply IH; [cbn [length]; lia | assumption | assumption].
Qed.

Lemma strip_bom_code_points (s : jsstring) :
  well_formed s -> hd 0 s <> 0xFEFF ->
  strip_bom (code_points s) = code_points s.
Proof.
  intros Hw Hbom. destruct s as [|c rest]; [reflexivity|].
  cbn [code_points well_formed hd] in *. unfold is_high, is_low in *.
  destruct ((0xD800 <=? c) && (c <=? 0xDBFF)) eqn:Eh.
  - destruct rest as [|d rest']; [contradiction|].
    destruct Hw as [Hd _]. rewrite Hd. cbn [strip_bom].
    replace (_ =? 0xFEFF) with false by lia. reflexivity.
  - destruct Hw as [Hl _]. rewrite Hl. cbn [strip_bom].
    replace (c =? 0xFEFF) with false by lia. reflexivity.
Qed.

Lemma map_replacement_Some (cps : list Z) : map replacement (map Some cps) = cps.
Proof. rewrite map_map. cbn [replacement]. apply map_id. Qed.

(** A well-formed string that does not start with U+FEFF survives encoding
    to UTF-8 and decoding back. *)
Lemma TextDecoder_TextEncoder (s : jsstring) :
  is_string s -> well_formed s -> hd 0 s <> 0xFEFF ->
  TextDecoder_decode (TextEncoder_encode s) = s.
Proof.
  intros Hs Hw Hbom. unfold TextDecoder_decode, TextEncoder_encode.
  rewrite utf8_run_encode by now apply code_points_scalar.
  rewrite map_replacement_Some, strip_bom_code_points by assumption.
  now apply code_points_utf16.
Qed.

Lemma TextEncoder_encode_bytes (s : jsstring) :
  is_string s -> byte_list (TextEncoder_encode s).
Proof.
  intro Hs. unfold TextEncoder_encode.
  apply code_points_scalar in Hs.
  induction Hs as [|cp cps Hcp _ IH]; [constructor|].
  cbn [flat_map]. apply Forall_app. split; [|exact IH].
  now apply utf8_encode_cp_bytes.
Qed.

Lemma TextEncoder_encode_app (a b : jsstring) :
  well_formed a ->
  TextEncoder_encode (a ++ b) = TextEncoder_encode a ++ TextEncoder_encode b.
Proof.
  intro Hw. unfold TextEncoder_encode.
  now rewrite code_points_app, flat_map_app.
Qed.

(** ** The bit stream of an encoded buffer *)

Lemma lsb_written (d b : Z) :
  b = 0 \/ b = 1 -> Z.land (Z.lor (Z.land d 0xFE) b) 1 = b.
Proof.
  intro Hb. rewrite Z.land_lor_distr_l, <- Z.land_assoc.
  change (Z.land 0xFE 1) with 0. rewrite Z.land_0_r.
  destruct Hb as [-> | ->]; reflexivity.
Qed.

Lemma non_alpha_length (data : list Z) (i : nat) :
  length (non_alpha i data)
  = ((i + length data - (i + length data) / 4) - (i - i / 4))%nat.
Proof.
  revert i; induction data as [|d rest IH]; intro i; cbn [non_alpha length].
  - lia.
  - destruct (Nat.eqb_spec ((i + 1) mod 4) 0); cbn [length]; rewrite IH; lia.
Qed.

Lemma lsb_stream_length (data : list Z) :
  length (lsb_stream data) = (length data - length data / 4)%nat.
Proof.
  unfold lsb_stream. rewrite length_map, non_alpha_length.
  cbn [Nat.add]. change (0 / 4)%nat with 0%nat. lia.
Qed.

Lemma embed_stream_prefix (data bits : list Z) (i : nat) :
  digits01 bits ->
  (length bits <= length (non_alpha i data))%nat ->
  firstn (length bits)
    (map (fun d => Z.land d 1) (non_alpha i (embed i data bits)))
  = bits.
Proof.
  revert i bits; induction data as [|d rest IH]; intros i bits Hd Hl.
  - cbn [non_alpha length] in Hl. destruct bits; [reflexivity|].
    cbn [length] in Hl. lia.
  - destruct bits as [|b bits']; [reflexivity|].
    inversion Hd as [|? ? Hb Hd']; subst.
    cbn [embed]. destruct ((i + 1) mod 4 =? 0)%nat eqn:E;
      cbn [non_alpha] in *; rewrite E in *.
    + now apply IH.
    + cbn [map length firstn] in *.
      rewrite lsb_written by assumption. f_equal. apply IH; [assumption|lia].
Qed.

(** The stream of an encoded buffer starts with the embedded bits. *)
Lemma embed_stream (data bits : list Z) :
  digits01 bits ->
  (length bits <= length (lsb_stream data))%nat ->
  exists tail,
    lsb_stream (embed 0 data bits) = bits ++ tail
    /\ length (lsb_stream (embed 0 data bits)) = length (lsb_stream data).
Proof.
  intros Hd Hl. exists (skipn (length bits) (lsb_stream (embed 0 data bits))).
  split.
  - rewrite <- (firstn_skipn (length bits) (lsb_stream (embed 0 data bits))) at 1.
    f_equal. apply embed_stream_prefix; [assumption|].
    unfold lsb_stream in Hl. now rewrite length_map in Hl.
  - now rewrite !lsb_stream_length, embed_length.
Qed.

(** ** Decoding a frame carried by a buffer *)

Lemma firstn_app_exact {A} (a b : list A) (n : nat) :
  length a = n -> firstn n (a ++ b) = a.
Proof.
  intros <-. rewrite firstn_app, Nat.sub_diag, firstn_all. cbn [firstn].
  apply app_nil_r.
Qed.

Lemma map_parse_digits (bs : list Z) :
  byte_list bs ->
  map parseInt2 (map (fun b => padStart8 (toString2 b)) bs) = bs.
Proof.
  induction 1 as [|b bs Hb _ IH]; [reflexivity|].
  cbn [map]. now rewrite byte_digits_parse, IH.
Qed.

Lemma Uint8Array_id (bs : list Z) : byte_list bs -> Uint8Array bs = bs.
Proof.
  unfold Uint8Array. induction 1 as [|b bs Hb _ IH]; [reflexivity|].
  cbn [map]. rewrite IH. f_equal. lia.
Qed.

Lemma getUint32_setUint32 (n : Z) :
  0 <= n < 4294967296 -> getUint32 (Uint8Array (setUint32 n)) = n.
Proof.
  intro Hn. rewrite Uint8Array_id by apply setUint32_bytes.
  unfold getUint32, setUint32. cbn [nth]. lia.
Qed.

Lemma chunks8_of_bytes (bs : list Z) :
  byte_list bs ->
  chunks8 [] (bytes_to_binary bs) = map (fun b => padStart8 (toString2 b)) bs.
Proof.
  intro H. rewrite <- (app_nil_r (bytes_to_binary bs)).
  rewrite chunks8_bytes by assumption. cbn [chunks8]. apply app_nil_r.
Qed.

Lemma framed_bytes (L : Z) (payload : list Z) :
  byte_list payload -> byte_list (framed L payload).
Proof.
  intro H. unfold framed. rewrite (TextEncoder_encode_ascii _ MAGIC_HEADER_ascii).
  apply Forall_app. split; [apply ascii_text_bytes, MAGIC_HEADER_ascii|].
  apply Forall_app. split; [apply setUint32_bytes | exact H].
Qed.

(** The header phase on a buffer whose stream starts with a frame. *)
Lemma framed_header (img : ImageData) (L : Z) (payload tail : list Z) :
  lsb_stream (data img) = bytes_to_binary (framed L payload) ++ tail ->
  0 <= L < 4294967296 ->
  exists headerBytes,
    header_chunks img = Some headerBytes
    /\ (headerSize <= length headerBytes)%nat
    /\ magic_of (extractedBytes_of headerBytes) = MAGIC_HEADER
    /\ messageLength_of (extractedBytes_of headerBytes) = L.
Proof.
  intros Hstream HL.
  set (hdr := MAGIC_HEADER ++ setUint32 L).
  assert (Hframe : framed L payload = hdr ++ payload).
  { unfold framed, hdr. rewrite (TextEncoder_encode_ascii _ MAGIC_HEADER_ascii).
    now rewrite app_assoc. }
  assert (Hhdr : byte_list hdr).
  { apply Forall_app. split;
      [apply ascii_text_bytes, MAGIC_HEADER_ascii | apply setUint32_bytes]. }
  assert (Hhl : length hdr = 10%nat) by reflexivity.
  assert (Hex : extractedBytes_of (map (fun b => padStart8 (toString2 b)) hdr)
                = hdr).
  { unfold extractedBytes_of. rewrite firstn_all2
      by (rewrite length_map, Hhl; unfold headerSize; cbn [length MAGIC_HEADER]; lia).
    now apply map_parse_digits. }
  exists (map (fun b => padStart8 (toString2 b)) hdr).
  split; [|split; [|split]].
  - unfold header_chunks. rewrite extract_loop_stream, Hstream, Hframe.
    rewrite bytes_to_binary_app, <- app_assoc.
    rewrite firstn_app_exact
      by (rewrite bytes_to_binary_length, Hhl by assumption; reflexivity).
    rewrite match8_some; [now rewrite chunks8_of_bytes|].
    intro E. apply (f_equal (@length Z)) in E.
    rewrite bytes_to_binary_length, Hhl in E by assumption. discriminate.
  - rewrite length_map, Hhl. unfold headerSize. cbn [length MAGIC_HEADER]. lia.
  - rewrite Hex. reflexivity.
  - rewrite Hex. unfold messageLength_of.
    change (slice hdr (length MAGIC_HEADER) (length MAGIC_HEADER + 4))
      with (setUint32 L).
    now apply getUint32_setUint32.
Qed.

(** A buffer whose stream starts with a well-formed frame is decoded on the
    current-format path to the frame's payload. *)
Lemma decodeText_framed (img : ImageData) (payload tail : list Z) :
  let L := Z.of_nat (length payload) in
  lsb_stream (data img) = bytes_to_binary (framed L payload) ++ tail ->
  byte_list payload ->
  L <= maxPossibleLength img -> L <= 10000000 ->
  current_format img L
  /\ decodeText img = Ok (finish_message payload).
Proof.
  intros L Hstream Hpay Hmax Hcap.
  assert (Hcur : current_format img L).
  { destruct (framed_header img L payload tail Hstream) as (hb & H1 & H2 & H3 & H4);
      [unfold L; lia|].
    exists hb. repeat split; assumption. }
  split; [exact Hcur|].
  destruct (current_format_decode img L Hcur) as [Hsome ->].
  f_equal. f_equal. unfold payload_bytes, payload_chunks.
  unfold messageByteStrings_of.
  rewrite extract_loop_stream, Hstream.
  assert (Hfb : byte_list (framed L payload)) by now apply framed_bytes.
  assert (Hfl : length (framed L payload) = (10 + length payload)%nat).
  { unfold framed. rewrite (TextEncoder_encode_ascii _ MAGIC_HEADER_ascii).
    rewrite !length_app. reflexivity. }
  rewrite firstn_app_exact.
  2:{ rewrite bytes_to_binary_length, Hfl by assumption. unfold headerSize, L.
      cbn [length MAGIC_HEADER]. lia. }
  rewrite match8_some.
  2:{ intro E. apply (f_equal (@length Z)) in E.
      rewrite bytes_to_binary_length, Hfl in E by assumption.
      cbn [length] in E. lia. }
  rewrite chunks8_of_bytes by assumption.
  unfold framed at 1. rewrite (TextEncoder_encode_ascii _ MAGIC_HEADER_ascii).
  rewrite app_assoc, map_app. unfold slice.
  rewrite firstn_all2.
  2:{ rewrite length_app, !length_map, length_app. unfold headerSize, L.
      cbn [length MAGIC_HEADER setUint32]. lia. }
  replace headerSize
    with (length (map (fun b => padStart8 (toString2 b))
                    (MAGIC_HEADER ++ setUint32 L)))
    by (rewrite length_map; reflexivity).
  rewrite skipn_app, skipn_all, Nat.sub_diag. cbn [app skipn].
  rewrite map_parse_digits by assumption.
  now apply Uint8Array_id.
Qed.

(** A frame whose declared length exceeds the absolute ceiling is rejected. *)
Lemma decodeText_framed_too_long (img : ImageData) (L : Z) (payload tail : list Z) :
  lsb_stream (data img) = bytes_to_binary (framed L payload) ++ tail ->
  10000000 < L < 4294967296 ->
  decodeText img = Throw InvalidLength.
Proof.
  intros Hstream HL.
  destruct (framed_header img L payload tail Hstream) as (hb & H1 & H2 & H3 & H4);
    [lia|].
  unfold decodeText. rewrite H1.
  replace (length hb <? headerSize)%nat with false
    by (symmetry; apply Nat.ltb_ge; exact H2).
  rewrite H3, str_eqb_refl, H4. cbn [negb].
  replace (L >? 10000000) with true by lia.
  now rewrite orb_true_r.
Qed.

(** ** Round trip through the current format *)

Lemma DELIMITER_string : is_string DELIMITER.
Proof. repeat constructor; lia. Qed.

Lemma DELIMITER_well_formed : well_formed DELIMITER.
Proof. cbn. tauto. Qed.

Lemma finish_message_encoded (text : jsstring) :
  is_string text -> well_formed text -> hd 0 text <> 0xFEFF ->
  finish_message (TextEncoder_encode (text ++ DELIMITER)) = text.
Proof.
  intros Hs Hw Hbom. unfold finish_message.
  rewrite TextDecoder_TextEncoder.
  - now rewrite endsWith_app, slice_to_neg_app.
  - apply Forall_app. split; [exact Hs | exact DELIMITER_string].
  - apply well_formed_app; [exact Hw | exact DELIMITER_well_formed].
  - destruct text as [|c rest]; [cbn; lia | exact Hbom].
Qed.

(** What [encodeText] produces for a text within capacity: a buffer whose
    stream starts with the frame of the encoded message. *)
Lemma encodeText_stream (img : ImageData) (text : jsstring) :
  raster img -> is_string text -> well_formed text ->
  Z.of_nat (length (TextEncoder_encode text))
    <= calculateCapacity (width img) (height img) ->
  let msg := TextEncoder_encode (text ++ DELIMITER) in
  exists out tail,
    encodeText img text = Ok out
    /\ lsb_stream (data out)
       = bytes_to_binary (framed (Z.of_nat (length msg)) msg) ++ tail
    /\ length (data out) = length (data img)
    /\ length msg = (length (TextEncoder_encode text) + 7)%nat
    /\ byte_list msg.
Proof.
  intros (Hw0 & Hh0 & Hlen & _) Hs Hw Hcap msg.
  rewrite calculateCapacity_eq in Hcap.
  assert (Hmsg : length msg = (length (TextEncoder_encode text) + 7)%nat).
  { unfold msg. rewrite TextEncoder_encode_app by assumption.
    rewrite (TextEncoder_encode_ascii _ DELIMITER_ascii), length_app.
    reflexivity. }
  assert (Hbytes : byte_list msg).
  { apply TextEncoder_encode_bytes, Forall_app.
    split; [exact Hs | exact DELIMITER_string]. }
  set (bits := bytes_to_binary (framed (Z.of_nat (length msg)) msg)).
  assert (Hfb : byte_list (framed (Z.of_nat (length msg)) msg))
    by now apply framed_bytes.
  assert (Hbl : length bits = (8 * (10 + length msg))%nat).
  { unfold bits. rewrite bytes_to_binary_length by assumption.
    unfold framed. rewrite (TextEncoder_encode_ascii _ MAGIC_HEADER_ascii).
    rewrite !length_app. reflexivity. }
  destruct (embed_stream (data img) bits) as (tail & Hstream & Hsl).
  { now apply bytes_to_binary_01. }
  { rewrite lsb_stream_length. lia. }
  exists (mkImageData (width img) (height img) (embed 0 (data img) bits)), tail.
  split; [|split; [exact Hstream|split; [apply embed_length|now split]]].
  unfold encodeText. fold msg. fold (framed (Z.of_nat (length msg)) msg).
  fold bits. rewrite Hbl.
  replace (_ >? _) with false by lia.
  now rewrite encode_loop_embed.
Qed.

Lemma ascii_text_string (s : jsstring) : ascii_text s -> is_string s.
Proof. apply Forall_impl. intros; lia. Qed.

Lemma ascii_text_well_formed (s : jsstring) : ascii_text s -> well_formed s.
Proof.
  induction 1 as [|c s Hc _ IH]; [exact I|].
  cbn [well_formed]. unfold is_high, is_low.
  replace ((0xD800 <=? c) && (c <=? 0xDBFF)) with false by lia.
  split; [lia | exact IH].
Qed.

(** The absolute length ceiling of [decodeText] has no counterpart in
    [encodeText]: a text within capacity whose message exceeds 10,000,000
    bytes is embedded and then rejected. *)
Lemma roundtrip_rejects_long_text (img : ImageData) (text : jsstring) :
  raster img -> is_string text -> well_formed text ->
  Z.of_nat (length (TextEncoder_encode text))
    <= calculateCapacity (width img) (height img) ->
  10000000 < Z.of_nat (length (TextEncoder_encode text)) + 7 < 4294967296 ->
  exists out, encodeText img text = Ok out
              /\ decodeText out = Throw InvalidLength.
Proof.
  intros Hr Hs Hw Hcap Hlong.
  destruct (encodeText_stream img text Hr Hs Hw Hcap)
    as (out & tail & Henc & Hstream & _ & Hmsg & _).
  exists out. split; [exact Henc|].
  apply (decodeText_framed_too_long _ _ _ tail Hstream). lia.
Qed.

(** C1 (as stated) fails: a 5200x5200 raster offers 81,120,000 bits and has
    capacity 10,139,983; the text of 9,999,994 letters [a] is within it and
    [encodeText] embeds it, with declared length 10,000,001; [decodeText] on
    the encoded buffer throws [InvalidLength] instead of returning the text. *)
Lemma roundtrip_rejects_ten_megabytes :
  136 <= 5200 * 5200 * 3
  /\ Z.of_nat (length (TextEncoder_encode (repeat 97 (Z.to_nat 9999994))))
     <= calculateCapacity 5200 5200
  /\ exists out,
       encodeText (blank 5200 5200 0) (repeat 97 (Z.to_nat 9999994)) = Ok out
       /\ decodeText out = Throw InvalidLength
       /\ decodeText out <> Ok (repeat 97 (Z.to_nat 9999994)).
Proof.
  assert (Ha : ascii_text (repeat 97 (Z.to_nat 9999994))).
  { apply Forall_forall. intros c Hc. apply repeat_spec in Hc. lia. }
  assert (Hl : Z.of_nat (length (TextEncoder_encode (repeat 97 (Z.to_nat 9999994))))
               = 9999994).
  { rewrite TextEncoder_encode_ascii, repeat_length by exact Ha. lia. }
  assert (Hc : calculateCapacity 5200 5200 = 10139983) by reflexivity.
  split; [lia|]. split; [rewrite Hl, Hc; lia|].
  destruct (roundtrip_rejects_long_text (blank 5200 5200 0)
              (repeat 97 (Z.to_nat 9999994))) as (out & Henc & Hdec).
  - unfold raster, blank. cbn [width height data].
    split; [lia|]. split; [lia|]. split; [rewrite repeat_length; lia|].
    apply Forall_forall. intros d Hd. apply repeat_spec in Hd. lia.
  - now apply ascii_text_string.
  - now apply ascii_text_well_formed.
  - cbn [width height blank]. rewrite Hl, Hc. lia.
  - rewrite Hl. lia.
  - exists out. split; [exact Henc|]. split; [exact Hdec|].
    rewrite Hdec. discriminate.
Qed.

(** A leading U+FEFF does not survive either: the decoder of [decodeText]
    drops a byte order mark.  The text U+FEFF has 3 UTF-8 bytes, within the
    capacity 20 of a 10x10 raster, and decodes to the empty string. *)
Lemma roundtrip_drops_leading_bom :
  Z.of_nat (length (TextEncoder_encode [0xFEFF])) <= calculateCapacity 10 10
  /\ exists out,
       encodeText (blank 10 10 0) [0xFEFF] = Ok out
       /\ decodeText out = Ok [].
Proof.
  split; [apply Z.leb_le; reflexivity|].
  eexists. split; [reflexivity | vm_compute; reflexivity].
Qed.

(** A lone surrogate is encoded as U+FFFD and comes back as U+FFFD. *)
Lemma roundtrip_replaces_lone_surrogate :
  exists out,
    encodeText (blank 10 10 0) [0xD83D] = Ok out
    /\ decodeText out = Ok [0xFFFD].
Proof. eexists. split; [reflexivity | vm_compute; reflexivity]. Qed.

(** C1 (amended): for every raster buffer with at least the 136 overhead bits
    and every text that is well-formed UTF-16, does not start with U+FEFF, has
    a UTF-8 length of at most [calculateCapacity width height] and, with the 7
    delimiter bytes, of at most 10,000,000, [encodeText] returns a buffer and
    [decodeText] on that buffer returns exactly the text. *)
Theorem encode_decode_roundtrip (img : ImageData) (text : jsstring) :
  raster img ->
  is_string text -> well_formed text -> hd 0 text <> 0xFEFF ->
  136 <= width img * height img * 3 ->
  Z.of_nat (length (TextEncoder_encode text))
    <= calculateCapacity (width img) (height img) ->
  Z.of_nat (length (TextEncoder_encode text)) + 7 <= 10000000 ->
  exists out, encodeText img text = Ok out /\ decodeText out = Ok text.
Proof.
  intros Hr Hs Hw Hbom _ Hcap Hmax.
  destruct (encodeText_stream img text Hr Hs Hw Hcap)
    as (out & tail & Henc & Hstream & Hdl & Hmsg & Hbytes).
  destruct Hr as (Hw0 & Hh0 & Hlen & _).
  rewrite calculateCapacity_eq in Hcap.
  exists out. split; [exact Henc|].
  rewrite <- (finish_message_encoded text Hs Hw Hbom).
  apply (decodeText_framed _ _ tail).
  - exact Hstream.
  - exact Hbytes.
  - unfold maxPossibleLength. rewrite Hdl. lia.
  - lia.
Qed.

Lemma encode_decode_roundtrip_witness :
  exists out,
    encodeText (blank 10 10 0) (str "hello"%string) = Ok out
    /\ decodeText out = Ok (str "hello"%string).
Proof.
  apply (encode_decode_roundtrip (blank 10 10 0) (str "hello"%string)).
  - unfold raster, blank. cbn [width height data].
    split; [lia|]. split; [lia|]. split; [reflexivity|].
    apply Forall_forall. intros d Hd. apply repeat_spec in Hd. lia.
  - apply Forall_forall. intros c Hc. cbn in Hc. lia.
  - vm_compute. repeat split.
  - vm_compute. discriminate.
  - vm_compute. discriminate.
  - apply Z.leb_le. reflexivity.
  - apply Z.leb_le. reflexivity.
Defined.


(** ** Legacy buffers *)

Lemma legacy_loop_scan (data binaryText : list Z) (i : nat) (text : jsstring) :
  legacy_loop i data binaryText text
  = legacy_scan (map (fun d => Z.land d 1) (non_alpha i data)) binaryText text.
Proof.
  revert i binaryText text; induction data as [|d rest IH]; intros i bt text;
    [reflexivity|].
  cbn [legacy_loop non_alpha].
  destruct ((i + 1) mod 4 =? 0)%nat; [apply IH|].
  cbn [map legacy_scan]. now rewrite !IH.
Qed.

Lemma decodeLegacyFormat_scan (img : ImageData) :
  decodeLegacyFormat img = legacy_scan (lsb_stream (data img)) [] [].
Proof. apply legacy_loop_scan. Qed.

Lemma slice_last_app (a b : list Z) (n : nat) :
  length b = n -> slice_last (a ++ b) n = b.
Proof.
  intros <-. unfold slice_last. rewrite length_app.
  replace (length a + length b - length b)%nat with (length a + 0)%nat by lia.
  rewrite skipn_app, Nat.add_0_r, skipn_all, Nat.sub_diag. reflexivity.
Qed.

(** Scanning the eight bits of one byte. *)
Lemma legacy_scan_chunk (c pre bt rest : list Z) (text : jsstring) :
  (length bt mod 8 = 0)%nat -> (length pre + length c = 8)%nat -> c <> [] ->
  legacy_scan (c ++ rest) (bt ++ pre) text
  = let text' := text ++ legacy_char (parseInt2 (pre ++ c)) in
    if endsWith text' DELIMITER then Ok (slice_to_neg text' (length DELIMITER))
    else if Z.of_nat (length text') >? 1000000 then Throw NoMessageFound
    else legacy_scan rest (bt ++ pre ++ c) text'.
Proof.
  revert pre; induction c as [|x c IH]; intros pre Hbt Hl Hc; [contradiction|].
  cbn [app legacy_scan]. rewrite <- app_assoc.
  destruct c as [|y c]; cbn [length] in Hl.
  - replace (length (bt ++ pre ++ [x]) mod 8 =? 0)%nat with true
      by (rewrite !length_app; cbn [length]; lia).
    rewrite slice_last_app by (rewrite length_app; cbn [length]; lia).
    reflexivity.
  - replace (length (bt ++ pre ++ [x]) mod 8 =? 0)%nat with false
      by (rewrite !length_app; cbn [length]; lia).
    rewrite IH; [|assumption|rewrite length_app; cbn [length]; lia|discriminate].
    now rewrite <- !app_assoc.
Qed.

(** Scanning the bytes of a text that ends with its only delimiter. *)
Lemma legacy_scan_text (todo done bt rest : list Z) :
  (length bt mod 8 = 0)%nat -> latin1_text todo -> todo <> [] ->
  (forall k, (1 <= k < length todo)%nat ->
             endsWith (done ++ firstn k todo) DELIMITER = false) ->
  endsWith (done ++ todo) DELIMITER = true ->
  Z.of_nat (length (done ++ todo)) <= 1000001 ->
  legacy_scan (bytes_to_binary todo ++ rest) bt done
  = Ok (slice_to_neg (done ++ todo) (length DELIMITER)).
Proof.
  revert done bt; induction todo as [|b todo IH];
    intros done bt Hbt Hlat Hne Hearly Hend Hlen; [contradiction|].
  inversion Hlat as [|? ? Hb Hlat']; subst.
  rewrite bytes_to_binary_cons, <- app_assoc.
  rewrite <- (app_nil_r bt) at 1.
  rewrite legacy_scan_chunk;
    [|assumption
     |cbn [length]; rewrite byte_digits_length by lia; reflexivity
     |intro E; apply (f_equal (@length Z)) in E;
      rewrite byte_digits_length in E by lia; discriminate].
  cbn [app]. rewrite byte_digits_parse, legacy_char_nonzero by lia.
  cbv zeta. destruct todo as [|b' todo'].
  - now rewrite Hend.
  - assert (E : endsWith (done ++ [b]) DELIMITER = false)
      by (apply (Hearly 1%nat); cbn [length]; lia).
    rewrite E. rewrite length_app in *. cbn [length] in Hlen.
    replace (Z.of_nat (length done + length [b]) >? 1000000) with false
      by (cbn [length]; lia).
    replace (done ++ b :: b' :: todo') with ((done ++ [b]) ++ b' :: todo')
      by now rewrite <- app_assoc.
    apply IH.
    + rewrite length_app, byte_digits_length by lia. lia.
    + assumption.
    + discriminate.
    + intros k Hk. rewrite <- app_assoc.
      apply (Hearly (S k)). cbn [length] in *. lia.
    + now rewrite <- app_assoc.
    + rewrite !length_app. cbn [length]. lia.
Qed.

Lemma delimiter_only_at_end_spec (s : jsstring) (k : nat) :
  delimiter_only_at_end s = true -> (k < length s)%nat ->
  endsWith (firstn k s) DELIMITER = false.
Proof.
  unfold delimiter_only_at_end. intros H Hk. rewrite forallb_forall in H.
  apply negb_true_iff, H, in_seq. lia.
Qed.

(** ** Byte sequences that decode to ASCII text *)

Lemma utf8_lead_cases (b : Z) :
  (b <= 0x7F /\ utf8_lead b = (utf8_init, CodePoint b))
  \/ utf8_lead b = (utf8_init, DecodeFailure)
  \/ (exists st, utf8_lead b = (st, Continue) /\ pending_ok st).
Proof.
  unfold utf8_lead.
  destruct (Z.leb_spec b 0x7F); [left; now split|]. right.
  destruct ((0xC2 <=? b) && (b <=? 0xDF)) eqn:E2.
  { right. eexists. split; [reflexivity|].
    unfold pending_ok. cbn. lia. }
  destruct ((0xE0 <=? b) && (b <=? 0xEF)) eqn:E3.
  { right. eexists. split; [reflexivity|].
    unfold pending_ok. cbn.
    destruct (Z.eqb_spec b 0xE0); destruct (Z.eqb_spec b 0xED); lia. }
  destruct ((0xF0 <=? b) && (b <=? 0xF4)) eqn:E4.
  { right. eexists. split; [reflexivity|].
    unfold pending_ok. cbn.
    destruct (Z.eqb_spec b 0xF0); destruct (Z.eqb_spec b 0xF4); lia. }
  now left.
Qed.

Lemma pending_needed (st : utf8_state) :
  pending_ok st -> (bytes_needed st =? 0) = false.
Proof. unfold pending_ok. cbv zeta. lia. Qed.

(** The decoder never outputs more items than it read bytes, counting one
    for a sequence already begun. *)
Lemma utf8_run_length (bs : list Z) (st : utf8_state) :
  (length (utf8_run st bs)
   <= length bs + (if (bytes_needed st =? 0)%Z then 0 else 1))%nat.
Proof.
  revert st; induction bs as [|b rest IH]; intro st; cbn [utf8_run length].
  - destruct (bytes_needed st =? 0); cbn [length]; lia.
  - assert (Hlead : (length (let '(st', r) := utf8_lead b in
                             items_of r ++ utf8_run st' rest)
                     <= S (length rest))%nat).
    { destruct (utf8_lead_cases b) as [[_ ->]|[->|(st' & -> & Hp)]];
        cbn [items_of app length].
      - specialize (IH utf8_init). cbn in IH. lia.
      - specialize (IH utf8_init). cbn in IH. lia.
      - specialize (IH st'). rewrite pending_needed in IH by assumption. lia. }
    destruct (utf8_lead b) as [st' r].
    destruct (bytes_needed st =? 0) eqn:En; [lia|].
    destruct ((b <? lower_boundary st) || (upper_boundary st <? b)).
    + cbn [length]. lia.
    + destruct (bytes_seen st + 1 =? bytes_needed st).
      * cbn [length]. specialize (IH utf8_init). cbn in IH. lia.
      * match goal with |- context [utf8_run ?s rest] => specialize (IH s) end.
        cbn [bytes_needed] in IH. rewrite En in IH. lia.
Qed.

(** If every output item is an ASCII code point, the input is that ASCII
    text and no sequence was pending. *)
Lemma utf8_run_ascii_items (bs : list Z) (st : utf8_state) :
  bytes_needed st = 0 \/ pending_ok st ->
  Forall ascii_item (utf8_run st bs) ->
  bytes_needed st = 0 /\ utf8_run st bs = map Some bs.
Proof.
  revert st; induction bs as [|b rest IH]; intros st Hst Hall;
    cbn [utf8_run map] in *.
  - destruct (Z.eqb_spec (bytes_needed st) 0) as [E|E]; [now split|].
    inversion Hall as [|? ? Hf _]; subst. contradiction.
  - destruct (Z.eqb_spec (bytes_needed st) 0) as [E|E].
    + split; [exact E|].
      destruct (utf8_lead_cases b) as [[_ Hl]|[Hl|(st' & Hl & Hp)]];
        rewrite Hl in *; cbn [items_of app] in *.
      * inversion Hall as [|? ? _ Hrest]; subst. f_equal.
        apply (IH utf8_init); [now left | exact Hrest].
      * inversion Hall as [|? ? Hf _]; subst. contradiction.
      * apply IH in Hall as [Hn _]; [|now right].
        apply pending_needed in Hp. lia.
    + destruct Hst as [Hst|Hp]; [contradiction|]. exfalso.
      unfold pending_ok in Hp. cbv zeta in Hp.
      destruct ((b <? lower_boundary st) || (upper_boundary st <? b)) eqn:Er.
      * destruct (utf8_lead b) as [st' r].
        inversion Hall as [|? ? Hf _]; subst. contradiction.
      * destruct (Z.eqb_spec (bytes_seen st + 1) (bytes_needed st)) as [Es|Es].
        -- inversion Hall as [|? ? Hf _]; subst. cbn [ascii_item] in Hf. lia.
        -- apply IH in Hall as [Hn _]; [cbn [bytes_needed] in Hn; lia|].
           right. unfold pending_ok. cbn. lia.
Qed.

Lemma utf16_ascii (cps : list Z) :
  ascii_text (flat_map utf16_encode_cp cps) -> flat_map utf16_encode_cp cps = cps.
Proof.
  induction cps as [|cp cps IH]; [reflexivity|].
  cbn [flat_map]. intro H. apply Forall_app in H as [Hcp Hrest].
  rewrite IH by assumption. unfold utf16_encode_cp in *.
  destruct (Z.leb_spec cp 0xFFFF); [reflexivity|].
  exfalso. apply Forall_inv in Hcp. lia.
Qed.

Lemma replacement_ascii (items : list (option Z)) :
  ascii_text (map replacement items) -> Forall ascii_item items.
Proof.
  induction items as [|[cp|] items IH]; cbn [map replacement]; intro H;
    inversion H as [|? ? Hx Hr]; subst; constructor; auto.
  cbn [ascii_item]. lia.
Qed.

(** A byte sequence as long as an ASCII text that decodes to that text is
    that text. *)
Lemma TextDecoder_decode_ascii_inv (bs : list Z) (m : jsstring) :
  ascii_text m -> length bs = length m ->
  TextDecoder_decode bs = m -> bs = m.
Proof.
  intros Hm Hl Hd. unfold TextDecoder_decode in Hd.
  pose proof (utf8_run_length bs utf8_init) as Hlen. cbn in Hlen.
  rewrite Nat.add_0_r in Hlen.
  rewrite utf16_ascii in Hd by (now rewrite Hd).
  destruct (map replacement (utf8_run utf8_init bs)) as [|c r] eqn:Ec.
  - destruct (utf8_run utf8_init bs); [|discriminate].
    cbn in Hlen. cbn [strip_bom] in Hd. subst m.
    destruct bs; [reflexivity|discriminate].
  - cbn [strip_bom] in Hd. destruct (Z.eqb_spec c 0xFEFF) as [->|Hc].
    + exfalso. apply (f_equal (@length Z)) in Ec.
      rewrite length_map in Ec. cbn [length] in Ec. subst r. lia.
    + rewrite <- Ec in Hd.
      assert (Hitems : Forall ascii_item (utf8_run utf8_init bs))
        by (apply replacement_ascii; now rewrite Hd).
      apply utf8_run_ascii_items in Hitems as [_ Hitems]; [|now left].
      rewrite Hitems, map_replacement_Some in Hd. exact Hd.
Qed.

(** A buffer whose stream starts with the bytes of a headerless message that
    does not begin with the magic token is handed to the legacy decoder. *)
Lemma decodeText_legacy_path (img : ImageData) (bytes tail : list Z) :
  lsb_stream (data img) = bytes_to_binary bytes ++ tail ->
  byte_list bytes -> (6 <= length bytes)%nat ->
  (80 <= length (lsb_stream (data img)))%nat ->
  firstn 6 bytes <> MAGIC_HEADER ->
  decodeText img = decodeLegacyFormat img.
Proof.
  intros Hstream Hbytes Hl6 Hl80 Hmagic.
  unfold decodeText, header_chunks. rewrite extract_loop_stream.
  change (Z.to_nat (Z.of_nat (headerSize * 8))) with 80%nat.
  set (s80 := firstn 80 (lsb_stream (data img))).
  assert (Hs80 : length s80 = 80%nat) by (unfold s80; rewrite length_firstn; lia).
  rewrite match8_some
    by (intro E; rewrite E in Hs80; discriminate).
  rewrite chunks8_length, Hs80 by (cbn [length]; lia).
  change ((length (@nil Z) + 80 + 7) / 8 <? headerSize)%nat with false.
  cbv iota.
  assert (Hm : magic_of (extractedBytes_of (chunks8 [] s80)) = 
               TextDecoder_decode (firstn 6 bytes)).
  { unfold magic_of, extractedBytes_of, slice. cbn [skipn].
    rewrite firstn_map, firstn_firstn.
    change (Nat.min (length MAGIC_HEADER) headerSize) with 6%nat.
    assert (Hb6 : byte_list (firstn 6 bytes)) by now apply firstn_Forall.
    assert (Hc : firstn 6 (chunks8 [] s80)
                 = map (fun b => padStart8 (toString2 b)) (firstn 6 bytes)).
    { unfold s80. rewrite Hstream.
      rewrite <- (firstn_skipn 6 bytes) at 1.
      rewrite bytes_to_binary_app, <- app_assoc, firstn_app.
      rewrite (@firstn_all2 _ 80%nat (bytes_to_binary (firstn 6 bytes)))
        by (rewrite bytes_to_binary_length, length_firstn by assumption; lia).
      rewrite chunks8_bytes by assumption.
      apply firstn_app_exact. rewrite length_map, length_firstn. lia. }
    rewrite Hc, map_parse_digits by assumption.
    now rewrite Uint8Array_id. }
  rewrite Hm.
  destruct (str_eqb (TextDecoder_decode (firstn 6 bytes)) MAGIC_HEADER) eqn:E;
    [|reflexivity].
  exfalso. apply Hmagic. apply str_eqb_eq in E.
  apply TextDecoder_decode_ascii_inv;
    [exact MAGIC_HEADER_ascii | rewrite length_firstn; cbn [length MAGIC_HEADER]; lia
    | exact E].
Qed.

Lemma latin1_text_bytes (s : jsstring) : latin1_text s -> byte_list s.
Proof. apply Forall_impl. intros; lia. Qed.

Lemma DELIMITER_latin1 : latin1_text DELIMITER.
Proof. repeat constructor; lia. Qed.

(** C7 (as stated) fails: the headerless encoder accepts each of these texts
    on an 8x8 raster, and [decodeText] on its output does not return the
    text: a U+0000 character is dropped, a text starting with the magic token
    is parsed as a current-format frame, a text containing the delimiter is
    cut at it, and a character above U+00FF misaligns the stream. *)
Lemma legacy_texts_not_recovered :
  (exists out, Legacy.encodeText (blank 8 8 0) [0] = Ok out
               /\ decodeText out = Ok [])
  /\ (exists out, Legacy.encodeText (blank 8 8 0) (str "STEGO1"%string) = Ok out
                  /\ decodeText out = Throw InvalidLength)
  /\ (exists out, Legacy.encodeText (blank 8 8 0) (str "a$$END$$b"%string) = Ok out
                  /\ decodeText out = Ok (str "a"%string))
  /\ (exists out, Legacy.encodeText (blank 8 8 0) [0x20AC] = Ok out
                  /\ decodeText out = Throw NoMessageFound).
Proof.
  repeat split; eexists; (split; [reflexivity | vm_compute; reflexivity]).
Qed.

(** C7 (amended): for every raster and every text whose characters have codes
    in 1..255, that with the delimiter appended holds the delimiter only at
    its end, does not begin with the magic token and has at most 1,000,001
    characters, the buffer the headerless encoder returns is decoded by
    [decodeText], through [decodeLegacyFormat], to the text. *)
Theorem legacy_buffer_decodes (img out : ImageData) (text : jsstring) :
  raster img ->
  latin1_text text ->
  delimiter_only_at_end (text ++ DELIMITER) = true ->
  firstn 6 (text ++ DELIMITER) <> MAGIC_HEADER ->
  Z.of_nat (length text) + 7 <= 1000001 ->
  Legacy.encodeText img text = Ok out ->
  decodeText out = decodeLegacyFormat out /\ decodeText out = Ok text.
Proof.
  intros (Hw0 & Hh0 & Hlen & _) Hlat Hdelim Hmagic Hmax Henc.
  unfold Legacy.encodeText, Legacy.calculateCapacity in Henc.
  destruct (_ >? _) eqn:Ecap; [discriminate|]. injection Henc as <-.
  rewrite encode_loop_embed. cbn [skipn].
  change (Legacy.textToBinary (text ++ DELIMITER))
    with (bytes_to_binary (text ++ DELIMITER)).
  set (bytes := text ++ DELIMITER) in *.
  assert (Hl1 : latin1_text bytes)
    by (apply Forall_app; split; [exact Hlat | exact DELIMITER_latin1]).
  assert (Hbytes : byte_list bytes) by now apply latin1_text_bytes.
  assert (Hbl : length bytes = (length text + 7)%nat)
    by (unfold bytes; rewrite length_app; reflexivity).
  rewrite Hbl in Ecap. cbn [length DELIMITER] in Ecap.
  destruct (embed_stream (data img) (bytes_to_binary bytes))
    as (tail & Hstream & Hsl).
  { now apply bytes_to_binary_01. }
  { rewrite lsb_stream_length, bytes_to_binary_length, Hbl by assumption. lia. }
  assert (Hpath : decodeText
                    {| width := width img; height := height img;
                       data := embed 0 (data img) (bytes_to_binary bytes) |}
                  = decodeLegacyFormat
                      {| width := width img; height := height img;
                         data := embed 0 (data img) (bytes_to_binary bytes) |}).
  { apply (decodeText_legacy_path _ bytes tail); cbn [data];
      [exact Hstream | exact Hbytes | lia
      | rewrite Hsl, lsb_stream_length; lia | exact Hmagic]. }
  split; [exact Hpath|]. rewrite Hpath, decodeLegacyFormat_scan. cbn [data].
  rewrite Hstream.
  rewrite (legacy_scan_text bytes [] [] tail).
  - cbn [app]. unfold bytes. now rewrite slice_to_neg_app.
  - reflexivity.
  - exact Hl1.
  - intro E. rewrite E in Hbl. cbn [length] in Hbl. lia.
  - intros k Hk. cbn [app]. apply delimiter_only_at_end_spec; [exact Hdelim|lia].
  - cbn [app]. apply endsWith_app.
  - cbn [app]. lia.
Qed.

Lemma legacy_buffer_decodes_witness :
  exists out,
    Legacy.encodeText (blank 8 8 0) (str "hi"%string) = Ok out
    /\ decodeText out = Ok (str "hi"%string).
Proof.
  eexists. split; [reflexivity|].
  apply (legacy_buffer_decodes (blank 8 8 0) _ (str "hi"%string)).
  - unfold raster, blank. cbn [width height data].
    split; [lia|]. split; [lia|]. split; [reflexivity|].
    apply Forall_forall. intros d Hd. apply repeat_spec in Hd. lia.
  - apply Forall_forall. intros c Hc. cbn in Hc. lia.
  - vm_compute. reflexivity.
  - vm_compute. discriminate.
  - vm_compute. discriminate.
  - reflexivity.
Defined.

(** ** Zero bytes in the legacy scan *)

(** Scanning bytes, zeros among them, none of which completes the delimiter:
    the scan goes on with the non-zero bytes appended to the text. *)
Lemma legacy_scan_skip (bytes done bt rest : list Z) :
  (length bt mod 8 = 0)%nat -> byte_text bytes ->
  endsWith done DELIMITER = false ->
  (forall k, (1 <= k <= length (nonzero_bytes bytes))%nat ->
             endsWith (done ++ firstn k (nonzero_bytes bytes)) DELIMITER = false) ->
  Z.of_nat (length (done ++ nonzero_bytes bytes)) <= 1000000 ->
  legacy_scan (bytes_to_binary bytes ++ rest) bt done
  = legacy_scan rest (bt ++ bytes_to_binary bytes) (done ++ nonzero_bytes bytes).
Proof.
  revert done bt; induction bytes as [|b bytes IH];
    intros done bt Hbt Hbyte Hdone Hearly Hlen.
  - cbn [bytes_to_binary flat_map nonzero_bytes filter app].
    now rewrite !app_nil_r.
  - inversion Hbyte as [|? ? Hb Hbyte']; subst.
    rewrite bytes_to_binary_cons, <- !app_assoc.
    rewrite <- (app_nil_r bt) at 1.
    rewrite legacy_scan_chunk;
      [|assumption
       |cbn [length]; rewrite byte_digits_length by lia; reflexivity
       |intro E; apply (f_equal (@length Z)) in E;
        rewrite byte_digits_length in E by lia; discriminate].
    cbn [app]. rewrite byte_digits_parse by lia. cbv zeta.
    unfold nonzero_bytes in *. cbn [filter] in *.
    destruct (Z.eqb_spec b 0) as [->|Hnz]; cbn [negb] in *.
    + rewrite legacy_char_zero, app_nil_r, Hdone.
      replace (_ >? _) with false by (rewrite length_app in Hlen; lia).
      rewrite IH;
        [now rewrite <- app_assoc| |assumption|assumption|assumption|assumption].
      rewrite length_app, byte_digits_length by lia. lia.
    + rewrite legacy_char_nonzero by lia.
      assert (E : endsWith (done ++ [b]) DELIMITER = false)
        by (apply (Hearly 1%nat); cbn [length]; lia).
      rewrite E. rewrite !length_app in Hlen. cbn [length] in Hlen.
      replace (_ >? _) with false by (rewrite length_app; cbn [length]; lia).
      rewrite IH.
      * now rewrite <- !app_assoc.
      * rewrite length_app, byte_digits_length by lia. lia.
      * assumption.
      * exact E.
      * intros k Hk. rewrite <- app_assoc. apply (Hearly (S k)).
        cbn [length]. lia.
      * rewrite !length_app. cbn [length]. lia.
Qed.

(** The fallback scan on a stream of bytes followed by the delimiter: it
    returns the non-zero bytes as characters. *)
Lemma legacy_scan_zero_bytes (img : ImageData) (bytes tail : list Z) :
  lsb_stream (data img) = bytes_to_binary (bytes ++ DELIMITER) ++ tail ->
  byte_text bytes ->
  delimiter_only_at_end (nonzero_bytes bytes ++ DELIMITER) = true ->
  Z.of_nat (length (nonzero_bytes bytes)) + 7 <= 1000001 ->
  decodeLegacyFormat img = Ok (nonzero_bytes bytes).
Proof.
  intros Hstream Hbyte Hdelim Hlen.
  assert (Hpre : forall k, (k <= length (nonzero_bytes bytes))%nat ->
                   endsWith (firstn k (nonzero_bytes bytes)) DELIMITER = false).
  { intros k Hk.
    rewrite <- (delimiter_only_at_end_spec _ k Hdelim)
      by (rewrite length_app; cbn [length DELIMITER]; lia).
    rewrite firstn_app.
    replace (k - length (nonzero_bytes bytes))%nat with 0%nat by lia.
    cbn [firstn]. now rewrite app_nil_r. }
  rewrite decodeLegacyFormat_scan, Hstream, bytes_to_binary_app, <- app_assoc.
  rewrite legacy_scan_skip.
  - cbn [app]. rewrite legacy_scan_text.
    + now rewrite slice_to_neg_app.
    + rewrite bytes_to_binary_length by exact Hbyte. lia.
    + exact DELIMITER_latin1.
    + discriminate.
    + intros k Hk. cbn [length DELIMITER] in Hk.
      rewrite <- (delimiter_only_at_end_spec
                    _ (length (nonzero_bytes bytes) + k) Hdelim)
        by (rewrite length_app; cbn [length DELIMITER]; lia).
      rewrite firstn_app.
      rewrite (@firstn_all2 _ (length (nonzero_bytes bytes) + k)%nat
                 (nonzero_bytes bytes)) by lia.
      now replace (length (nonzero_bytes bytes) + k
                   - length (nonzero_bytes bytes))%nat with k by lia.
    + apply endsWith_app.
    + rewrite length_app. change (length DELIMITER) with 7%nat. lia.
  - reflexivity.
  - exact Hbyte.
  - reflexivity.
  - intros k Hk. cbn [app]. apply Hpre. lia.
  - cbn [app]. lia.
Qed.

(** C10: in the legacy scan a completed byte 0 appends no character and the
    scan goes on, while every byte from 1 to 255 appends exactly the one
    character with that code: from a buffer whose stream is a sequence of
    bytes followed by the delimiter, the scan returns the non-zero bytes as
    text (so also [decodeText], when it falls back to the scan);
    [decodeText] on a buffer of zero samples fails with [NoMessageFound]; and
    the scan never returns a text that holds the character U+0000. *)
Theorem legacy_zero_byte_skipped :
  legacy_char 0 = []
  /\ (forall b, 1 <= b <= 255 -> legacy_char b = [b])
  /\ (forall img bytes tail,
        lsb_stream (data img) = bytes_to_binary (bytes ++ DELIMITER) ++ tail ->
        byte_text bytes ->
        delimiter_only_at_end (nonzero_bytes bytes ++ DELIMITER) = true ->
        Z.of_nat (length (nonzero_bytes bytes)) + 7 <= 1000001 ->
        decodeLegacyFormat img = Ok (nonzero_bytes bytes)
        /\ ((80 <= length (lsb_stream (data img)))%nat ->
            firstn 6 (bytes ++ DELIMITER) <> MAGIC_HEADER ->
            decodeText img = Ok (nonzero_bytes bytes)))
  /\ (forall img, Forall (fun d => d = 0) (data img) ->
       decodeText img = Throw NoMessageFound)
  /\ (forall img text, In 0 text -> decodeLegacyFormat img <> Ok text).
Proof.
  split; [reflexivity|]. split; [exact legacy_char_nonzero|].
  split; [|split; [exact decodeText_zeros|]].
  - intros img bytes tail Hstream Hbyte Hdelim Hlen.
    pose proof (legacy_scan_zero_bytes img bytes tail Hstream Hbyte Hdelim Hlen)
      as Hscan.
    split; [exact Hscan|]. intros H80 Hmagic.
    rewrite <- Hscan.
    apply (decodeText_legacy_path img (bytes ++ DELIMITER) tail).
    + exact Hstream.
    + apply Forall_app. split; [exact Hbyte|].
      apply latin1_text_bytes, DELIMITER_latin1.
    + rewrite length_app. cbn [length DELIMITER]. lia.
    + exact H80.
    + exact Hmagic.
  - intros img text Hin H. unfold decodeLegacyFormat in H.
    apply legacy_loop_no_zero in H; [contradiction|constructor|intros []].
Qed.

Lemma legacy_zero_byte_skipped_witness :
  legacy_char 200 = [200]
  /\ decodeLegacyFormat (carrier_image 8 8 (0 :: DELIMITER)) = Ok []
  /\ decodeText (carrier_image 8 8 ([97; 0; 98; 0; 0; 233] ++ DELIMITER))
     = Ok [97; 98; 233]
  /\ decodeText (blank 10 10 0) = Throw NoMessageFound
  /\ decodeLegacyFormat (carrier_image 8 8 (0 :: DELIMITER)) <> Ok [0].
Proof.
  destruct legacy_zero_byte_skipped as (_ & Hone & Hscan & Hzero & Hnever).
  split; [apply Hone; lia|]. split; [|split; [|split]].
  - apply (proj1 (Hscan (carrier_image 8 8 (0 :: DELIMITER)) [0] (repeat 0 128)
                    eq_refl ltac:(repeat constructor; lia) eq_refl
                    ltac:(vm_compute; discriminate))).
  - apply (proj2 (Hscan (carrier_image 8 8 ([97; 0; 98; 0; 0; 233] ++ DELIMITER))
                    [97; 0; 98; 0; 0; 233] (repeat 0 88)
                    eq_refl ltac:(repeat constructor; lia) eq_refl
                    ltac:(vm_compute; discriminate))).
    + vm_compute. lia.
    + vm_compute. discriminate.
  - apply Hzero. apply Forall_forall. intros d Hd.
    now apply repeat_spec in Hd.
  - apply Hnever. now left.
Defined.

(* ================================================================== *)
(** * Further properties *)
(* ================================================================== *)

(** ** What [encodeText] accepts *)

Lemma code_points_app_sep (a b : jsstring) :
  is_low (hd 0 b) = false ->
  code_points (a ++ b) = code_points a ++ code_points b.
Proof.
  intro Hb. induction a as [a IH] using length_induction.
  destruct a as [|c rest]; [reflexivity|].
  cbn [app code_points]. destruct (is_high c).
  - destruct rest as [|d rest'].
    + cbn [app]. destruct b as [|d b']; [reflexivity|].
      cbn [hd] in Hb. rewrite Hb. reflexivity.
    + cbn [app]. destruct (is_low d).
      * rewrite IH by (cbn [length]; lia). reflexivity.
      * change (d :: rest' ++ b) with ((d :: rest') ++ b).
        rewrite (IH (d :: rest')) by (cbn [length]; lia). reflexivity.
  - destruct (is_low c); rewrite IH by (cbn [length]; lia); reflexivity.
Qed.

Lemma TextEncoder_encode_delimited (text : jsstring) :
  TextEncoder_encode (text ++ DELIMITER) = TextEncoder_encode text ++ DELIMITER.
Proof.
  unfold TextEncoder_encode.
  rewrite code_points_app_sep by reflexivity.
  rewrite flat_map_app. apply f_equal.
  exact (TextEncoder_encode_ascii _ DELIMITER_ascii).
Qed.

(** The bits [encodeText] builds for a text: 8 per byte of magic, length
    field, text and delimiter. *)
Lemma encodeText_bits (text : jsstring) :
  is_string text ->
  let msg := TextEncoder_encode (text ++ DELIMITER) in
  let bits := bytes_to_binary (framed (Z.of_nat (length msg)) msg) in
  length bits = (8 * (length (TextEncoder_encode text) + 17))%nat
  /\ digits01 bits.
Proof.
  intros Hs msg bits.
  assert (Hbytes : byte_list msg).
  { apply TextEncoder_encode_bytes, Forall_app.
    split; [exact Hs | exact DELIMITER_string]. }
  assert (Hfb : byte_list (framed (Z.of_nat (length msg)) msg))
    by now apply framed_bytes.
  split; [|now apply bytes_to_binary_01].
  unfold bits. rewrite bytes_to_binary_length by assumption.
  unfold framed, msg. rewrite (TextEncoder_encode_ascii _ MAGIC_HEADER_ascii).
  rewrite TextEncoder_encode_delimited, !length_app.
  cbn [length MAGIC_HEADER DELIMITER setUint32]. lia.
Qed.

Lemma encodeText_unfold (img : ImageData) (text : jsstring) :
  let msg := TextEncoder_encode (text ++ DELIMITER) in
  let bits := bytes_to_binary (framed (Z.of_nat (length msg)) msg) in
  encodeText img text
  = if Z.of_nat (length bits) >? width img * height img * 3
    then Throw (CapacityExceeded (width img * height img * 3 / 8 - 6 - 4 - 7))
    else Ok (mkImageData (width img) (height img) (embed 0 (data img) bits)).
Proof.
  intros msg bits. unfold encodeText. fold msg.
  fold (framed (Z.of_nat (length msg)) msg). fold bits.
  rewrite encode_loop_embed. reflexivity.
Qed.

Lemma encodeText_capacity_cases (img : ImageData) (text : jsstring) :
  is_string text ->
  let n := Z.of_nat (length (TextEncoder_encode text)) in
  let capacity := calculateCapacity (width img) (height img) in
  (n <= capacity -> exists out, encodeText img text = Ok out)
  /\ (capacity < n -> encodeText img text = Throw (CapacityExceeded capacity)).
Proof.
  intros Hs n capacity. unfold capacity. rewrite calculateCapacity_eq.
  destruct (encodeText_bits text Hs) as [Hl _].
  rewrite encodeText_unfold, Hl. split; intro H.
  - replace (_ >? _) with false by lia. eexists. reflexivity.
  - replace (_ >? _) with true by lia. f_equal. f_equal. lia.
Qed.

(** X1: [encodeText] returns a buffer exactly when the UTF-8 length of the
    text is at most [calculateCapacity width height]; otherwise it throws
    the capacity error, and the number it reports is that capacity. *)
Theorem encodeText_accepts_iff_capacity (img : ImageData) (text : jsstring) :
  is_string text ->
  let n := Z.of_nat (length (TextEncoder_encode text)) in
  let capacity := calculateCapacity (width img) (height img) in
  ((exists out, encodeText img text = Ok out) <-> n <= capacity)
  /\ (capacity < n -> encodeText img text = Throw (CapacityExceeded capacity)).
Proof.
  intros Hs n capacity.
  destruct (encodeText_capacity_cases img text Hs) as [Hok Hthrow].
  fold n capacity in Hok, Hthrow. split; [split|exact Hthrow].
  - intros [out Hout]. destruct (Z.le_gt_cases n capacity) as [H|H]; [exact H|].
    rewrite (Hthrow H) in Hout. discriminate.
  - exact Hok.
Qed.

Lemma encodeText_accepts_iff_capacity_witness :
  (exists out, encodeText (blank 10 10 0) (repeat 0x20AC 6) = Ok out)
  /\ encodeText (blank 10 10 0) (repeat 0x20AC 7) = Throw (CapacityExceeded 20).
Proof.
  assert (Hs : forall k, is_string (repeat 0x20AC k)).
  { intro k. apply Forall_forall. intros c Hc. apply repeat_spec in Hc. lia. }
  split.
  - destruct (encodeText_accepts_iff_capacity (blank 10 10 0) (repeat 0x20AC 6)
                (Hs 6%nat)) as [H _].
    apply (proj2 H). vm_compute. discriminate.
  - destruct (encodeText_accepts_iff_capacity (blank 10 10 0) (repeat 0x20AC 7)
                (Hs 7%nat)) as [_ H].
    apply H. vm_compute. reflexivity.
Defined.

(** ** What [encodeText] writes *)

Lemma encodeText_Ok_inv (img out : ImageData) (text : jsstring) :
  encodeText img text = Ok out ->
  let msg := TextEncoder_encode (text ++ DELIMITER) in
  let bits := bytes_to_binary (framed (Z.of_nat (length msg)) msg) in
  out = mkImageData (width img) (height img) (embed 0 (data img) bits)
  /\ Z.of_nat (length bits) <= width img * height img * 3.
Proof.
  intros H msg bits. rewrite encodeText_unfold in H. fold msg bits in H.
  destruct (Z.gtb_spec (Z.of_nat (length bits)) (width img * height img * 3));
    [discriminate|].
  injection H as <-. split; [reflexivity | lia].
Qed.

Lemma sample_ok_all : forallb sample_ok (map Z.of_nat (seq 0 256)) = true.
Proof. vm_compute. reflexivity. Qed.

Lemma sample_written (d b : Z) :
  0 <= d <= 255 -> b = 0 \/ b = 1 ->
  Z.lor (Z.land d 0xFE) b / 2 = d / 2 /\ 0 <= Z.lor (Z.land d 0xFE) b <= 255.
Proof.
  intros Hd Hb. pose proof sample_ok_all as H. rewrite forallb_forall in H.
  assert (Hin : In d (map Z.of_nat (seq 0 256))).
  { rewrite <- (Z2Nat.id d) by lia. apply in_map, in_seq. lia. }
  apply H in Hin. unfold sample_ok in Hin. rewrite forallb_forall in Hin.
  assert (Hbin : In b [0; 1]) by (destruct Hb as [-> | ->]; cbn; auto).
  apply Hin in Hbin. cbv zeta in Hbin. lia.
Qed.

Lemma embed_lsb_only (data bits : list Z) (i : nat) :
  byte_list data -> digits01 bits ->
  Forall2 (fun d o => o / 2 = d / 2 /\ 0 <= o <= 255) data (embed i data bits).
Proof.
  intro Hd. revert i bits.
  induction Hd as [|d rest Hx Hrest IH]; intros i bits Hb; cbn [embed];
    [constructor|].
  destruct bits as [|bit bits'].
  - constructor; [split; [reflexivity|exact Hx]|].
    clear -Hrest. induction Hrest; constructor; auto.
  - inversion Hb as [|? ? Hbit Hbits']; subst.
    destruct ((i + 1) mod 4 =? 0)%nat.
    + constructor; [split; [reflexivity|exact Hx]|]. now apply IH.
    + constructor; [now apply sample_written|]. now apply IH.
Qed.

(** X2: when [encodeText] returns a buffer for a raster, the buffer is a
    raster of the same dimensions, and each of its samples equals the input
    sample at the same index in every bit but the least significant one. *)
Theorem encodeText_changes_only_lsb (img out : ImageData) (text : jsstring) :
  raster img -> is_string text ->
  encodeText img text = Ok out ->
  raster out
  /\ width out = width img /\ height out = height img
  /\ Forall2 (fun d o => o / 2 = d / 2) (data img) (data out).
Proof.
  intros (Hw & Hh & Hlen & Hrange) Hs Henc.
  apply encodeText_Ok_inv in Henc as [-> _]. cbn [width height data].
  destruct (encodeText_bits text Hs) as [_ Hbits].
  pose proof (embed_lsb_only (data img) _ 0 Hrange Hbits) as H2.
  split; [|split; [reflexivity|split; [reflexivity|]]].
  - unfold raster. cbn [width height data]. rewrite embed_length.
    split; [exact Hw|]. split; [exact Hh|]. split; [exact Hlen|].
    clear -H2. induction H2 as [|d o ? ? [_ Ho] _ IH]; constructor; auto.
  - clear -H2. induction H2 as [|d o ? ? [Ho _] _ IH]; constructor; auto.
Qed.

Lemma encodeText_changes_only_lsb_witness :
  exists out,
    encodeText (blank 8 8 200) (str "hi"%string) = Ok out
    /\ raster out
    /\ Forall2 (fun d o => o / 2 = d / 2) (data (blank 8 8 200)) (data out).
Proof.
  assert (E : exists out, encodeText (blank 8 8 200) (str "hi"%string) = Ok out)
    by (eexists; reflexivity).
  destruct E as [out E]. exists out. split; [exact E|].
  destruct (encodeText_changes_only_lsb (blank 8 8 200) out (str "hi"%string))
    as (Hr & _ & _ & Hs).
  - unfold raster, blank. cbn [width height data].
    split; [lia|]. split; [lia|]. split; [reflexivity|].
    apply Forall_forall. intros d Hd. apply repeat_spec in Hd. lia.
  - apply Forall_forall. intros c Hc. cbn in Hc. lia.
  - exact E.
  - split; assumption.
Defined.

Lemma embed_beyond (data bits : list Z) (i j : nat) :
  (length bits <= rank (i + j) - rank i)%nat ->
  nth_error (embed i data bits) j = nth_error data j.
Proof.
  unfold rank. revert i bits j; induction data as [|d rest IH];
    intros i bits j Hl; [reflexivity|].
  cbn [embed]. destruct bits as [|bit bits']; [reflexivity|].
  destruct j as [|j]; [cbn [length] in Hl; lia|].
  destruct (Nat.eqb_spec ((i + 1) mod 4) 0) as [Ha|Ha]; cbn [nth_error];
    apply IH; cbn [length] in *; lia.
Qed.

(** X3: when [encodeText] returns a buffer, every sample whose index [j] has
    at least as many non-alpha samples before it as bits were written
    (8 per byte of the text, plus 136) is the input sample. *)
Theorem encodeText_beyond_written_bits (img out : ImageData) (text : jsstring)
    (j : nat) :
  is_string text ->
  encodeText img text = Ok out ->
  (8 * (length (TextEncoder_encode text) + 17) <= rank j)%nat ->
  nth_error (data out) j = nth_error (data img) j.
Proof.
  intros Hs Henc Hj. apply encodeText_Ok_inv in Henc as [-> _]. cbn [data].
  destruct (encodeText_bits text Hs) as [Hl _].
  apply embed_beyond. rewrite Hl. unfold rank in *. cbn [Nat.add].
  change (0 / 4)%nat with 0%nat. lia.
Qed.

Lemma encodeText_beyond_written_bits_witness :
  exists out,
    encodeText (blank 8 8 255) (str "hi"%string) = Ok out
    /\ nth_error (data out) 201 = Some 254
    /\ nth_error (data out) 204 = Some 255.
Proof.
  eexists. split; [reflexivity|]. split; [reflexivity|].
  refine (eq_trans (encodeText_beyond_written_bits (blank 8 8 255) _ (str "hi"%string)
                      204 _ eq_refl _) _).
  - apply Forall_forall. intros c Hc. cbn in Hc. lia.
  - vm_compute. lia.
  - reflexivity.
Defined.

Lemma lsb_rewritten (d b : Z) :
  b = 0 \/ b = 1 ->
  Z.lor (Z.land (Z.lor (Z.land d 0xFE) b) 0xFE) b = Z.lor (Z.land d 0xFE) b.
Proof.
  intro Hb. rewrite Z.land_lor_distr_l, <- Z.land_assoc.
  change (Z.land 0xFE 0xFE) with 0xFE.
  replace (Z.land b 0xFE) with 0 by (destruct Hb as [-> | ->]; reflexivity).
  now rewrite Z.lor_0_r.
Qed.

Lemma embed_idempotent (data bits : list Z) (i : nat) :
  digits01 bits -> embed i (embed i data bits) bits = embed i data bits.
Proof.
  revert i bits; induction data as [|d rest IH]; intros i bits Hb;
    [reflexivity|].
  cbn [embed]. destruct bits as [|bit bits']; [reflexivity|].
  inversion Hb as [|? ? Hbit Hbits']; subst.
  destruct ((i + 1) mod 4 =? 0)%nat eqn:E; cbn [embed]; rewrite E.
  - now rewrite IH.
  - now rewrite lsb_rewritten, IH.
Qed.

(** X4: encoding the same text once more into the buffer [encodeText]
    returned gives that buffer again. *)
Theorem encodeText_idempotent (img out : ImageData) (text : jsstring) :
  is_string text ->
  encodeText img text = Ok out -> encodeText out text = Ok out.
Proof.
  intros Hs Henc. destruct (encodeText_bits text Hs) as [_ Hbits].
  apply encodeText_Ok_inv in Henc as [-> Hfit].
  rewrite encodeText_unfold. cbn [width height data].
  replace (_ >? _) with false by lia.
  now rewrite embed_idempotent.
Qed.

Lemma encodeText_idempotent_witness :
  exists out,
    encodeText (blank 8 8 200) (str "hi"%string) = Ok out
    /\ encodeText out (str "hi"%string) = Ok out.
Proof.
  eexists. split; [reflexivity|].
  apply (encodeText_idempotent (blank 8 8 200)).
  - apply Forall_forall. intros c Hc. cbn in Hc. lia.
  - reflexivity.
Defined.

(** ** What comes back from an encoded buffer *)

Lemma strip_bom_app (a b : list Z) :
  a <> [] -> strip_bom (a ++ b) = strip_bom a ++ b.
Proof.
  destruct a as [|c a]; [contradiction|]. intros _. cbn [app strip_bom].
  now destruct (c =? 0xFEFF).
Qed.

Lemma utf8_round_trip_delimited (text : jsstring) :
  is_string text ->
  TextDecoder_decode (TextEncoder_encode (text ++ DELIMITER))
  = TextDecoder_decode (TextEncoder_encode text) ++ DELIMITER.
Proof.
  intro Hs.
  assert (Hsd : is_string (text ++ DELIMITER))
    by (apply Forall_app; split; [exact Hs | exact DELIMITER_string]).
  unfold TextDecoder_decode, TextEncoder_encode.
  rewrite !utf8_run_encode by now apply code_points_scalar.
  rewrite !map_replacement_Some, code_points_app_sep by reflexivity.
  destruct (code_points text) as [|c cps] eqn:E.
  - reflexivity.
  - rewrite strip_bom_app by discriminate. now rewrite flat_map_app.
Qed.

Lemma decode_after_encode (img : ImageData) (text : jsstring) :
  raster img -> is_string text ->
  Z.of_nat (length (TextEncoder_encode text))
    <= calculateCapacity (width img) (height img) ->
  Z.of_nat (length (TextEncoder_encode text)) + 7 <= 10000000 ->
  exists out,
    encodeText img text = Ok out
    /\ decodeText out = Ok (TextDecoder_decode (TextEncoder_encode text)).
Proof.
  intros (Hw & Hh & Hlen & _) Hs Hcap Hmax.
  rewrite calculateCapacity_eq in Hcap.
  destruct (encodeText_bits text Hs) as [Hl Hbits]. cbv zeta in Hl, Hbits.
  set (msg := TextEncoder_encode (text ++ DELIMITER)) in *.
  set (bits := bytes_to_binary (framed (Z.of_nat (length msg)) msg)) in *.
  assert (Hmsg : length msg = (length (TextEncoder_encode text) + 7)%nat).
  { unfold msg. rewrite TextEncoder_encode_delimited, length_app. reflexivity. }
  exists (mkImageData (width img) (height img) (embed 0 (data img) bits)).
  split.
  - rewrite encodeText_unfold. fold msg bits. rewrite Hl.
    now replace (_ >? _) with false by lia.
  - destruct (embed_stream (data img) bits Hbits) as (tail & Hstream & _).
    { rewrite lsb_stream_length. lia. }
    destruct (decodeText_framed
                (mkImageData (width img) (height img) (embed 0 (data img) bits))
                msg tail) as [_ ->].
    + exact Hstream.
    + apply TextEncoder_encode_bytes, Forall_app.
      split; [exact Hs | exact DELIMITER_string].
    + unfold maxPossibleLength. cbn [data]. rewrite embed_length. lia.
    + lia.
    + f_equal. unfold finish_message, msg.
      rewrite utf8_round_trip_delimited by exact Hs.
      now rewrite endsWith_app, slice_to_neg_app.
Qed.

(** X5: for a raster and a text within capacity (and within the 10,000,000
    byte ceiling), [decodeText] on the buffer [encodeText] returns gives
    exactly what encoding the text to UTF-8 and decoding it back gives,
    whatever the samples of the raster were. *)
Theorem decode_of_encode (img : ImageData) (text : jsstring) :
  raster img -> is_string text ->
  Z.of_nat (length (TextEncoder_encode text))
    <= calculateCapacity (width img) (height img) ->
  Z.of_nat (length (TextEncoder_encode text)) + 7 <= 10000000 ->
  exists out,
    encodeText img text = Ok out
    /\ decodeText out = Ok (TextDecoder_decode (TextEncoder_encode text)).
Proof. exact (decode_after_encode img text). Qed.

Lemma decode_of_encode_witness :
  exists out,
    encodeText (blank 10 10 77) [0xD83D; 104] = Ok out
    /\ decodeText out = Ok [0xFFFD; 104].
Proof.
  apply (decode_of_encode (blank 10 10 77) [0xD83D; 104]).
  - unfold raster, blank. cbn [width height data].
    split; [lia|]. split; [lia|]. split; [reflexivity|].
    apply Forall_forall. intros d Hd. apply repeat_spec in Hd. lia.
  - repeat constructor; lia.
  - vm_compute. discriminate.
  - vm_compute. discriminate.
Defined.

(** ** What [decodeText] reads and throws *)

Lemma header_chunks_stream (a b : ImageData) :
  lsb_stream (data a) = lsb_stream (data b) ->
  header_chunks a = header_chunks b.
Proof.
  intro H. unfold header_chunks. now rewrite !extract_loop_stream, H.
Qed.

Lemma messageByteStrings_of_stream (a b : ImageData) (L : Z) :
  lsb_stream (data a) = lsb_stream (data b) ->
  messageByteStrings_of a L = messageByteStrings_of b L.
Proof.
  intro H. unfold messageByteStrings_of. now rewrite !extract_loop_stream, H.
Qed.

(** X6: [decodeText] reads nothing but the least significant bits of the
    non-alpha samples and the number of samples: two buffers that agree on
    these give the same outcome. *)
Theorem decodeText_reads_lsb_stream (a b : ImageData) :
  length (data a) = length (data b) ->
  lsb_stream (data a) = lsb_stream (data b) ->
  decodeText a = decodeText b.
Proof.
  intros Hl Hs. unfold decodeText.
  rewrite (header_chunks_stream a b Hs).
  assert (Hleg : decodeLegacyFormat a = decodeLegacyFormat b)
    by now rewrite !decodeLegacyFormat_scan, Hs.
  assert (Hmax : maxPossibleLength a = maxPossibleLength b)
    by (unfold maxPossibleLength; now rewrite Hl).
  rewrite Hleg, Hmax.
  destruct (header_chunks b) as [hb|]; [|reflexivity].
  destruct (length hb <? headerSize)%nat; [reflexivity|].
  destruct (negb _); [reflexivity|].
  destruct (_ || _); [reflexivity|].
  now rewrite (messageByteStrings_of_stream a b _ Hs).
Qed.

Lemma decodeText_reads_lsb_stream_witness :
  data img_with_delimiter <> data img_repainted
  /\ decodeText img_with_delimiter = Ok (str "hi"%string)
  /\ decodeText img_repainted = Ok (str "hi"%string).
Proof.
  split; [vm_compute; discriminate|].
  assert (E : decodeText img_with_delimiter = decodeText img_repainted)
    by (apply decodeText_reads_lsb_stream; vm_compute; reflexivity).
  split; [|rewrite <- E]; vm_compute; reflexivity.
Defined.

Lemma legacy_loop_throws (data binaryText : list Z) (i : nat) (text : jsstring)
    (e : error) :
  legacy_loop i data binaryText text = Throw e -> e = NoMessageFound.
Proof.
  revert i binaryText text; induction data as [|d rest IH];
    intros i bt text; cbn [legacy_loop].
  - intro H. now injection H as <-.
  - destruct ((i + 1) mod 4 =? 0)%nat; [apply IH|].
    destruct (_ mod 8 =? 0)%nat; [|apply IH].
    destruct (endsWith _ _); [discriminate|].
    destruct (_ >? _); [|apply IH].
    intro H. now injection H as <-.
Qed.

(** X7: the only errors [decodeText] throws are [NoMessageFound] and
    [InvalidLength]; its ["Failed to extract message"] cannot occur. *)
Theorem decodeText_errors (img : ImageData) (e : error) :
  decodeText img = Throw e -> e = NoMessageFound \/ e = InvalidLength.
Proof.
  unfold decodeText.
  destruct (header_chunks img) as [hb|] eqn:Hh;
    [|intro H; injection H as <-; now left].
  destruct (Nat.ltb_spec (length hb) headerSize) as [Hl|Hl];
    [intro H; injection H as <-; now left|].
  destruct (str_eqb (magic_of (extractedBytes_of hb)) MAGIC_HEADER) eqn:Em;
    cbn [negb].
  2:{ intro H. left. unfold decodeLegacyFormat in H.
      now apply legacy_loop_throws in H. }
  destruct (Z.gtb_spec (messageLength_of (extractedBytes_of hb))
              (maxPossibleLength img)) as [Hm|Hm];
    [intro H; injection H as <-; now right|].
  destruct (Z.gtb_spec (messageLength_of (extractedBytes_of hb)) 10000000)
    as [Hc|Hc]; [intro H; injection H as <-; now right|].
  cbn [orb].
  assert (Hcur : current_format img (messageLength_of (extractedBytes_of hb))).
  { exists hb. apply str_eqb_eq in Em. repeat split; assumption. }
  apply current_format_decode in Hcur as [-> _]. discriminate.
Qed.

Lemma decodeText_errors_witness :
  decodeText (carrier_image 4 8 (framed 13 [])) = Throw InvalidLength
  /\ (InvalidLength = NoMessageFound \/ InvalidLength = InvalidLength).
Proof.
  assert (H : decodeText (carrier_image 4 8 (framed 13 [])) = Throw InvalidLength)
    by (vm_compute; reflexivity).
  split; [exact H|].
  exact (decodeText_errors (carrier_image 4 8 (framed 13 [])) InvalidLength H).
Defined.

(** X8: a raster of at most 24 pixels is always rejected with
    [NoMessageFound], whatever its samples. *)
Theorem decodeText_tiny_raster (img : ImageData) :
  raster img -> width img * height img <= 24 ->
  decodeText img = Throw NoMessageFound.
Proof.
  intros (Hw & Hh & Hlen & _) Hp. apply decodeText_below_73_bits.
  rewrite lsb_stream_length. lia.
Qed.

Lemma decodeText_tiny_raster_witness :
  decodeText (carrier_image 4 6 (TextEncoder_encode MAGIC_HEADER))
  = Throw NoMessageFound.
Proof.
  apply decodeText_tiny_raster.
  - unfold raster, carrier_image. cbn [width height data].
    split; [lia|]. split; [lia|]. split; [reflexivity|].
    vm_compute. repeat constructor; discriminate.
  - vm_compute. discriminate.
Defined.

(** ** The text the fallback scan returns *)

Lemma lsb_stream_01 (data : list Z) : digits01 (lsb_stream data).
Proof.
  unfold lsb_stream. apply Forall_forall. intros b Hb.
  apply in_map_iff in Hb as (d & <- & _). apply lsb_01.
Qed.

Lemma legacy_char_cases (c : Z) :
  0 <= c <= 255 -> legacy_char c = [] \/ legacy_char c = [c].
Proof.
  intro Hc. destruct (Z.eq_dec c 0) as [->|Hne]; [now left|].
  right. apply legacy_char_nonzero. lia.
Qed.

Lemma legacy_scan_delimiter_free (stream bt : list Z) (text t : jsstring) :
  digits01 stream -> digits01 bt ->
  (forall k, (k <= length text)%nat ->
             endsWith (firstn k text) DELIMITER = false) ->
  legacy_scan stream bt text = Ok t ->
  delimiter_only_at_end (t ++ DELIMITER) = true.
Proof.
  intro Hs. revert bt text.
  induction Hs as [|b rest Hb Hrest IH]; intros bt text Hbt Inv;
    cbn [legacy_scan]; [discriminate|].
  assert (Hbt' : digits01 (bt ++ [b]))
    by (apply Forall_app; split; [exact Hbt | constructor; [exact Hb | constructor]]).
  destruct (length (bt ++ [b]) mod 8 =? 0)%nat; [|now apply IH].
  assert (Hc : 0 <= parseInt2 (slice_last (bt ++ [b]) 8) <= 255).
  { apply parseInt2_range; [now apply slice_last_Forall | apply slice_last_length]. }
  generalize dependent (parseInt2 (slice_last (bt ++ [b]) 8)). intros c Hc.
  assert (Hold : endsWith text DELIMITER = false).
  { rewrite <- (firstn_all text) at 1. apply Inv. lia. }
  destruct (legacy_char_cases c Hc) as [-> | ->].
  - rewrite app_nil_r, Hold. destruct (_ >? _); [discriminate|]. now apply IH.
  - assert (Hpre : forall k, (k <= length text)%nat ->
                     firstn k (text ++ [c]) = firstn k text).
    { intros k Hk. rewrite firstn_app.
      replace (k - length text)%nat with 0%nat by lia.
      cbn [firstn]. apply app_nil_r. }
    destruct (endsWith (text ++ [c]) DELIMITER) eqn:E.
    + intro H. injection H as <-.
      pose proof (endsWith_true _ _ E) as Ht.
      change (length DELIMITER) with 7%nat in Ht. rewrite <- Ht.
      unfold delimiter_only_at_end. apply forallb_forall. intros k Hk.
      apply in_seq in Hk. rewrite length_app in Hk. cbn [length] in Hk.
      apply negb_true_iff. rewrite Hpre by lia. apply Inv. lia.
    + destruct (_ >? _); [discriminate|]. apply IH; [exact Hbt'|].
      intros k Hk. rewrite length_app in Hk. cbn [length] in Hk.
      destruct (Nat.eq_dec k (length text + 1)) as [->|Hne].
      * rewrite firstn_all2 by (rewrite length_app; cbn [length]; lia).
        exact E.
      * rewrite Hpre by lia. apply Inv. lia.
Qed.

(** X9: the text [decodeLegacyFormat] returns never contains the delimiter
    token: with the delimiter appended, the delimiter occurs only at the
    very end. *)
Theorem decodeLegacyFormat_delimiter_free (img : ImageData) (t : jsstring) :
  decodeLegacyFormat img = Ok t ->
  delimiter_only_at_end (t ++ DELIMITER) = true.
Proof.
  rewrite decodeLegacyFormat_scan.
  apply legacy_scan_delimiter_free.
  - apply lsb_stream_01.
  - constructor.
  - intros k Hk. cbn [length] in Hk. now replace k with 0%nat by lia.
Qed.

Lemma decodeLegacyFormat_delimiter_free_witness :
  decodeLegacyFormat (carrier_image 8 8 (str "a$$END$$b$$END$$"%string)) = Ok (str "a"%string)
  /\ delimiter_only_at_end (str "a"%string ++ DELIMITER) = true.
Proof.
  assert (H : decodeLegacyFormat (carrier_image 8 8 (str "a$$END$$b$$END$$"%string))
              = Ok (str "a"%string)) by (vm_compute; reflexivity).
  split; [exact H|].
  exact (decodeLegacyFormat_delimiter_free _ _ H).
Defined.

(** ** Capacity arithmetic *)

(** X10: both capacity functions are non-decreasing in the width and in the
    height of a raster, and the header-based format carries exactly 10
    characters fewer than the headerless one. *)
Theorem calculateCapacity_monotone (w h w' h' : Z) :
  0 <= w <= w' -> 0 <= h <= h' ->
  calculateCapacity w h <= calculateCapacity w' h'
  /\ Legacy.calculateCapacity w h <= Legacy.calculateCapacity w' h'
  /\ calculateCapacity w h = Legacy.calculateCapacity w h - 10.
Proof.
  intros Hw Hh. rewrite !calculateCapacity_eq.
  unfold Legacy.calculateCapacity. cbn [length DELIMITER].
  assert (Hp : w * h <= w' * h') by nia.
  repeat split.
  - apply Z.div_le_mono; lia.
  - apply Z.div_le_mono; lia.
  - lia.
Qed.

Lemma calculateCapacity_monotone_witness :
  calculateCapacity 10 10 <= calculateCapacity 10 11
  /\ Legacy.calculateCapacity 10 10 <= Legacy.calculateCapacity 10 11
  /\ calculateCapacity 10 10 = Legacy.calculateCapacity 10 10 - 10.
Proof.
  apply calculateCapacity_monotone; lia.
Defined.

(** ** Text and binary strings *)

(** X11: [binaryToText] undoes [textToBinary] on every well-formed string
    that does not start with U+FEFF. *)
Theorem binaryToText_textToBinary (s : jsstring) :
  is_string s -> well_formed s -> hd 0 s <> 0xFEFF ->
  binaryToText (textToBinary s) = s.
Proof.
  intros Hs Hw Hbom. unfold binaryToText, textToBinary.
  pose proof (TextEncoder_encode_bytes s Hs) as Hb.
  destruct (TextEncoder_encode s) as [|b bs] eqn:E.
  - cbn. rewrite <- (TextDecoder_TextEncoder s Hs Hw Hbom), E. reflexivity.
  - rewrite match8_some.
    + rewrite chunks8_of_bytes, map_parse_digits, Uint8Array_id by assumption.
      rewrite <- E. now apply TextDecoder_TextEncoder.
    + intro H. apply (f_equal (@length Z)) in H.
      rewrite bytes_to_binary_length in H by assumption. discriminate.
Qed.

Lemma binaryToText_textToBinary_witness :
  binaryToText (textToBinary [0xE9; 0xD83D; 0xDE00]) = [0xE9; 0xD83D; 0xDE00].
Proof.
  apply binaryToText_textToBinary.
  - repeat constructor; lia.
  - vm_compute. repeat split.
  - vm_compute. discriminate.
Defined.

Lemma Legacy_binaryToText_bytes (bs : list Z) :
  byte_list bs -> Legacy.binaryToText (bytes_to_binary bs) = bs.
Proof.
  intro Hb. unfold Legacy.binaryToText.
  destruct bs as [|b bs]; [reflexivity|].
  rewrite match8_some.
  - rewrite chunks8_of_bytes by assumption.
    rewrite flat_map_concat_map, map_map.
    rewrite <- flat_map_concat_map.
    clear -Hb. induction Hb as [|x l Hx _ IH]; [reflexivity|].
    cbn [flat_map]. rewrite IH. unfold fromCharCode.
    now rewrite byte_digits_parse.
  - intro H. apply (f_equal (@length Z)) in H.
    rewrite bytes_to_binary_length in H by assumption. discriminate.
Qed.

(** X12: the headerless [binaryToText] undoes the headerless [textToBinary]
    on every string whose character codes are in 0..255. *)
Theorem Legacy_binaryToText_textToBinary (s : jsstring) :
  byte_text s -> Legacy.binaryToText (Legacy.textToBinary s) = s.
Proof. exact (Legacy_binaryToText_bytes s). Qed.

Lemma Legacy_binaryToText_textToBinary_witness :
  Legacy.binaryToText (Legacy.textToBinary [0; 104; 233]) = [0; 104; 233].
Proof.
  apply Legacy_binaryToText_textToBinary. repeat constructor; lia.
Defined.

(** ** The headerless decoder *)

Lemma Legacy_decode_loop_scan (data binaryText : list Z) (i : nat)
    (text : jsstring) :
  Legacy.decode_loop i data binaryText text
  = old_scan (map (fun d => Z.land d 1) (non_alpha i data)) binaryText text.
Proof.
  revert i binaryText text; induction data as [|d rest IH]; intros i bt text;
    [reflexivity|].
  cbn [Legacy.decode_loop non_alpha].
  destruct ((i + 1) mod 4 =? 0)%nat; [apply IH|].
  cbn [map old_scan]. now rewrite !IH.
Qed.

Lemma Legacy_decodeText_scan (img : ImageData) :
  Legacy.decodeText img = old_scan (lsb_stream (data img)) [] [].
Proof. apply Legacy_decode_loop_scan. Qed.

Lemma Legacy_binaryToText_chunk (c : list Z) :
  length c = 8%nat -> Legacy.binaryToText c = [parseInt2 c].
Proof.
  intro Hl. unfold Legacy.binaryToText.
  assert (Hc : chunks8 [] c = [c]).
  { rewrite <- (app_nil_r c) at 1. rewrite chunks8_fill; [reflexivity| |exact Hl].
    intros ->. discriminate. }
  rewrite match8_some by (intros ->; discriminate).
  rewrite Hc. reflexivity.
Qed.

(** The headerless scan over the eight bits of one byte. *)
Lemma old_scan_chunk (c pre bt rest : list Z) (text : jsstring) :
  (length bt mod 8 = 0)%nat -> (length pre + length c = 8)%nat -> c <> [] ->
  old_scan (c ++ rest) (bt ++ pre) text
  = let text' := text ++ [parseInt2 (pre ++ c)] in
    if endsWith text' DELIMITER then Ok (slice_to_neg text' (length DELIMITER))
    else old_scan rest (bt ++ pre ++ c) text'.
Proof.
  revert pre; induction c as [|x c IH]; intros pre Hbt Hl Hc; [contradiction|].
  cbn [app old_scan]. rewrite <- app_assoc.
  destruct c as [|y c]; cbn [length] in Hl.
  - replace (length (bt ++ pre ++ [x]) mod 8 =? 0)%nat with true
      by (rewrite !length_app; cbn [length]; lia).
    rewrite slice_last_app by (rewrite length_app; cbn [length]; lia).
    rewrite Legacy_binaryToText_chunk
      by (rewrite length_app; cbn [length]; lia).
    reflexivity.
  - replace (length (bt ++ pre ++ [x]) mod 8 =? 0)%nat with false
      by (rewrite !length_app; cbn [length]; lia).
    rewrite IH; [|assumption|rewrite length_app; cbn [length]; lia|discriminate].
    now rewrite <- !app_assoc.
Qed.

Lemma old_scan_text (todo done bt rest : list Z) :
  (length bt mod 8 = 0)%nat -> byte_text todo -> todo <> [] ->
  (forall k, (1 <= k < length todo)%nat ->
             endsWith (done ++ firstn k todo) DELIMITER = false) ->
  endsWith (done ++ todo) DELIMITER = true ->
  old_scan (bytes_to_binary todo ++ rest) bt done
  = Ok (slice_to_neg (done ++ todo) (length DELIMITER)).
Proof.
  revert done bt; induction todo as [|b todo IH];
    intros done bt Hbt Hbyte Hne Hearly Hend; [contradiction|].
  inversion Hbyte as [|? ? Hb Hbyte']; subst.
  rewrite bytes_to_binary_cons, <- app_assoc.
  rewrite <- (app_nil_r bt) at 1.
  rewrite old_scan_chunk;
    [|assumption
     |cbn [length]; rewrite byte_digits_length by lia; reflexivity
     |intro E; apply (f_equal (@length Z)) in E;
      rewrite byte_digits_length in E by lia; discriminate].
  cbn [app]. rewrite byte_digits_parse by lia.
  cbv zeta. destruct todo as [|b' todo'].
  - now rewrite Hend.
  - assert (E : endsWith (done ++ [b]) DELIMITER = false)
      by (apply (Hearly 1%nat); cbn [length]; lia).
    rewrite E.
    replace (done ++ b :: b' :: todo') with ((done ++ [b]) ++ b' :: todo')
      by now rewrite <- app_assoc.
    apply IH.
    + rewrite length_app, byte_digits_length by lia. lia.
    + assumption.
    + discriminate.
    + intros k Hk. rewrite <- app_assoc.
      apply (Hearly (S k)). cbn [length] in *. lia.
    + now rewrite <- app_assoc.
Qed.

(** The headerless decoder on what the headerless encoder returned. *)
Lemma Legacy_decode_after_encode (img out : ImageData) (text : jsstring) :
  raster img -> byte_text text ->
  delimiter_only_at_end (text ++ DELIMITER) = true ->
  Legacy.encodeText img text = Ok out ->
  Legacy.decodeText out = Ok text.
Proof.
  intros (Hw0 & Hh0 & Hlen & _) Hbyte Hdelim Henc.
  unfold Legacy.encodeText, Legacy.calculateCapacity in Henc.
  destruct (_ >? _) eqn:Ecap; [discriminate|]. injection Henc as <-.
  rewrite encode_loop_embed. cbn [skipn].
  change (Legacy.textToBinary (text ++ DELIMITER))
    with (bytes_to_binary (text ++ DELIMITER)).
  set (bytes := text ++ DELIMITER) in *.
  assert (Hbytes : byte_text bytes).
  { apply Forall_app. split; [exact Hbyte|].
    apply latin1_text_bytes, DELIMITER_latin1. }
  assert (Hbl : length bytes = (length text + 7)%nat)
    by (unfold bytes; rewrite length_app; reflexivity).
  rewrite Hbl in Ecap. cbn [length DELIMITER] in Ecap.
  destruct (embed_stream (data img) (bytes_to_binary bytes))
    as (tail & Hstream & _).
  { now apply bytes_to_binary_01. }
  { rewrite lsb_stream_length, bytes_to_binary_length, Hbl by assumption. lia. }
  rewrite Legacy_decodeText_scan. cbn [data]. rewrite Hstream.
  rewrite (old_scan_text bytes [] [] tail).
  - cbn [app]. unfold bytes. now rewrite slice_to_neg_app.
  - reflexivity.
  - exact Hbytes.
  - intro E. rewrite E in Hbl. cbn [length] in Hbl. lia.
  - intros k Hk. cbn [app]. apply delimiter_only_at_end_spec; [exact Hdelim|lia].
  - cbn [app]. apply endsWith_app.
Qed.

(** X13: round trip of the headerless codec: for a raster and a text whose
    character codes are in 0..255 and which, with the delimiter appended,
    holds the delimiter only at its end, the headerless [decodeText] returns
    the text from the buffer the headerless [encodeText] returned. *)
Theorem Legacy_round_trip (img out : ImageData) (text : jsstring) :
  raster img -> byte_text text ->
  delimiter_only_at_end (text ++ DELIMITER) = true ->
  Legacy.encodeText img text = Ok out ->
  Legacy.decodeText out = Ok text.
Proof. exact (Legacy_decode_after_encode img out text). Qed.

Lemma Legacy_round_trip_witness :
  exists out,
    Legacy.encodeText (blank 8 8 9) [0; 233; 104] = Ok out
    /\ Legacy.decodeText out = Ok [0; 233; 104].
Proof.
  eexists. split; [reflexivity|].
  apply (Legacy_round_trip (blank 8 8 9)).
  - unfold raster, blank. cbn [width height data].
    split; [lia|]. split; [lia|]. split; [reflexivity|].
    apply Forall_forall. intros d Hd. apply repeat_spec in Hd. lia.
  - repeat constructor; lia.
  - vm_compute. reflexivity.
  - reflexivity.
Defined.

Lemma old_scan_prefix (stream bt : list Z) (text t : jsstring) :
  old_scan stream bt text = Ok t ->
  exists suffix, t ++ DELIMITER = text ++ suffix.
Proof.
  revert bt text; induction stream as [|b rest IH]; intros bt text;
    cbn [old_scan]; [discriminate|].
  destruct (_ mod 8 =? 0)%nat; [|apply IH].
  destruct (endsWith _ DELIMITER) eqn:E.
  - intro H. injection H as <-.
    exists (Legacy.binaryToText (slice_last (bt ++ [b]) 8)).
    symmetry. exact (endsWith_true _ _ E).
  - intro H. apply IH in H as (suffix & ->). rewrite <- app_assoc.
    eexists. reflexivity.
Qed.

Lemma old_scan_agrees (stream bt : list Z) (text t : jsstring) :
  digits01 stream -> digits01 bt ->
  ~ In 0 t -> Z.of_nat (length t) + 7 <= 1000001 ->
  old_scan stream bt text = Ok t ->
  legacy_scan stream bt text = Ok t.
Proof.
  intros Hs Hbt Hz Hlen. revert bt text Hbt.
  induction Hs as [|b rest Hb Hrest IH]; intros bt text Hbt;
    cbn [old_scan legacy_scan]; [discriminate|].
  assert (Hbt' : digits01 (bt ++ [b]))
    by (apply Forall_app; split; [exact Hbt | constructor; [exact Hb | constructor]]).
  destruct (Nat.eqb_spec (length (bt ++ [b]) mod 8) 0) as [Hm|Hm];
    [|now apply IH].
  set (slice8 := slice_last (bt ++ [b]) 8).
  assert (Hl8 : length slice8 = 8%nat).
  { unfold slice8, slice_last. rewrite length_skipn.
    rewrite length_app in *. cbn [length] in *. lia. }
  assert (Hc : 0 <= parseInt2 slice8 <= 255).
  { apply parseInt2_range; [now apply slice_last_Forall | lia]. }
  rewrite Legacy_binaryToText_chunk by exact Hl8.
  generalize dependent (parseInt2 slice8). intros c Hc H.
  assert (Hpre : exists suffix, t ++ DELIMITER = (text ++ [c]) ++ suffix
                                /\ (endsWith (text ++ [c]) DELIMITER = false ->
                                    suffix <> [])).
  { destruct (endsWith (text ++ [c]) DELIMITER) eqn:E.
    - injection H as <-. exists []. rewrite app_nil_r.
      split; [symmetry; exact (endsWith_true _ DELIMITER E) | discriminate].
    - destruct (old_scan_prefix _ _ _ _ H) as (suffix & Hsuf).
      exists suffix. split; [exact Hsuf|]. intros _ ->.
      rewrite app_nil_r in Hsuf. rewrite <- Hsuf, endsWith_app in E.
      discriminate. }
  destruct Hpre as (suffix & Hsuf & Hne).
  assert (Hc0 : c <> 0).
  { intros Hc0. assert (Hin : In c (t ++ DELIMITER)).
    { rewrite Hsuf. apply in_or_app. left. apply in_or_app. right. now left. }
    rewrite Hc0 in Hin. apply in_app_or in Hin as [Hin|Hin]; [now apply Hz|].
    cbn in Hin. lia. }
  rewrite legacy_char_nonzero by lia.
  destruct (endsWith (text ++ [c]) DELIMITER) eqn:E; [exact H|].
  apply (f_equal (@length Z)) in Hsuf. rewrite !length_app in Hsuf.
  cbn [length DELIMITER] in Hsuf.
  assert (length suffix <> 0)%nat
    by (destruct suffix; [now specialize (Hne eq_refl) | discriminate]).
  replace (_ >? _) with false by (rewrite length_app; cbn [length]; lia).
  now apply IH.
Qed.

(** X14: backward compatibility of the fallback decoder: whenever the
    headerless [decodeText] returns a text that has no U+0000 character and,
    with the delimiter, at most 1,000,001 characters, [decodeLegacyFormat]
    returns the same text from the same buffer. *)
Theorem decodeLegacyFormat_agrees_with_Legacy (img : ImageData) (t : jsstring) :
  Legacy.decodeText img = Ok t ->
  ~ In 0 t -> Z.of_nat (length t) + 7 <= 1000001 ->
  decodeLegacyFormat img = Ok t.
Proof.
  intros H Hz Hlen. rewrite Legacy_decodeText_scan in H.
  rewrite decodeLegacyFormat_scan.
  apply old_scan_agrees; try assumption; [apply lsb_stream_01 | constructor].
Qed.

Lemma decodeLegacyFormat_agrees_with_Legacy_witness :
  decodeLegacyFormat (carrier_image 8 8 (str "hi there$$END$$"%string))
  = Ok (str "hi there"%string).
Proof.
  apply decodeLegacyFormat_agrees_with_Legacy.
  - vm_compute. reflexivity.
  - vm_compute. intuition discriminate.
  - vm_compute. discriminate.
Defined.

(** ** Video frames *)

(** The headerless [encodeText] accepts a text exactly when the text and the
    delimiter fit the capacity. *)
Lemma Legacy_encodeText_cases (img : ImageData) (text : jsstring) :
  let capacity := Legacy.calculateCapacity (width img) (height img) in
  (Z.of_nat (length text) + 7 <= capacity ->
   Legacy.encodeText img text
   = Ok (mkImageData (width img) (height img)
           (encode_loop (Legacy.textToBinary (text ++ DELIMITER)) 0 (data img) 0)))
  /\ (capacity < Z.of_nat (length text) + 7 ->
      Legacy.encodeText img text = Throw (CapacityExceeded capacity)).
Proof.
  intro capacity. unfold Legacy.encodeText. fold capacity.
  rewrite length_app. change (length DELIMITER) with 7%nat.
  split; intro H.
  - now replace (_ >? _) with false by lia.
  - now replace (_ >? _) with true by lia.
Qed.

Lemma map_frames_identity {time : Type}
    (f : Video.VideoFrame time -> nat -> Video.video_outcome (Video.VideoFrame time))
    (frames : list (Video.VideoFrame time)) (index : nat) :
  (forall frame i, (index <= i)%nat -> f frame i = Video.VOk frame) ->
  Video.map_frames f index frames = Video.VOk frames.
Proof.
  revert index; induction frames as [|frame rest IH]; intros index Hf;
    [reflexivity|].
  cbn [Video.map_frames]. rewrite Hf by lia.
  rewrite IH; [reflexivity|]. intros fr i Hi. apply Hf. lia.
Qed.

(** [encodeTextInFrames] on a non-empty list of frames, by the outcome of
    [encodeText] on the first frame, once the length check has passed. *)
Lemma encodeTextInFrames_first {time : Type}
    (first : Video.VideoFrame time) (others : list (Video.VideoFrame time))
    (text : jsstring) :
  Z.of_nat (length text)
    <= Legacy.calculateCapacity (width (Video.imageData first))
         (height (Video.imageData first)) ->
  Video.encodeTextInFrames (first :: others) text
  = match Legacy.encodeText (Video.imageData first) text with
    | Throw e => Video.VThrow (Video.Codec e)
    | Ok encoded =>
        Video.VOk (Video.mkVideoFrame encoded (Video.timestamp first) :: others)
    end.
Proof.
  intro Hfit. unfold Video.encodeTextInFrames.
  cbn [length Nat.eqb Video.calculateVideoCapacity].
  replace (_ >? _) with false by lia.
  cbn [Video.map_frames Nat.eqb].
  destruct (Legacy.encodeText (Video.imageData first) text); [|reflexivity].
  rewrite map_frames_identity; [reflexivity|].
  intros frame i Hi. destruct i; [lia|reflexivity].
Qed.

(** [encodeTextInFrames] rejects a text longer than the capacity by its own
    check. *)
Lemma encodeTextInFrames_too_long {time : Type}
    (first : Video.VideoFrame time) (others : list (Video.VideoFrame time))
    (text : jsstring) :
  Video.calculateVideoCapacity (first :: others) < Z.of_nat (length text) ->
  Video.encodeTextInFrames (first :: others) text
  = Video.VThrow
      (Video.Codec (CapacityExceeded (Video.calculateVideoCapacity (first :: others)))).
Proof.
  intro Hover. unfold Video.encodeTextInFrames. cbn [length Nat.eqb].
  now replace (_ >? _) with true by lia.
Qed.

(** X15: when [encodeTextInFrames] returns, it returns as many frames as it
    was given: the first carries the buffer that [encodeText] of the
    headerless library, which [videoSteganography.ts] imports, returned for
    the first frame's image and keeps its time stamp, and all the others are
    the given frames, in order. *)
Theorem encodeTextInFrames_touches_first_only {time : Type}
    (frames out : list (Video.VideoFrame time)) (text : jsstring) :
  Video.encodeTextInFrames frames text = Video.VOk out ->
  exists first others encoded,
    frames = first :: others
    /\ Legacy.encodeText (Video.imageData first) text = Ok encoded
    /\ out = Video.mkVideoFrame encoded (Video.timestamp first) :: others.
Proof.
  destruct frames as [|first others]; [discriminate|].
  intro H. exists first, others.
  destruct (Z.le_gt_cases (Z.of_nat (length text))
              (Video.calculateVideoCapacity (first :: others))) as [Hfit|Hover].
  - rewrite encodeTextInFrames_first in H by exact Hfit.
    destruct (Legacy.encodeText (Video.imageData first) text) as [encoded|e];
      [|discriminate].
    injection H as <-. exists encoded. now split.
  - rewrite encodeTextInFrames_too_long in H by lia. discriminate.
Qed.

Lemma encodeTextInFrames_touches_first_only_witness :
  exists out encoded,
    Video.encodeTextInFrames
      [Video.mkVideoFrame (blank 8 8 0) 0; Video.mkVideoFrame (blank 8 8 1) 33]
      (str "hi"%string) = Video.VOk out
    /\ Legacy.encodeText (blank 8 8 0) (str "hi"%string) = Ok encoded
    /\ out = [Video.mkVideoFrame encoded 0; Video.mkVideoFrame (blank 8 8 1) 33].
Proof.
  assert (E : exists out,
             Video.encodeTextInFrames
               [Video.mkVideoFrame (blank 8 8 0) 0;
                Video.mkVideoFrame (blank 8 8 1) 33]
               (str "hi"%string) = Video.VOk out) by (eexists; reflexivity).
  destruct E as [out E].
  destruct (encodeTextInFrames_touches_first_only _ _ _ E)
    as (first & others & encoded & Hf & Henc & Hout).
  injection Hf as <- <-.
  exists out, encoded. split; [exact E|]. split; [exact Henc | exact Hout].
Defined.

(** X16: on a non-empty list of frames, [encodeTextInFrames] returns frames
    exactly when the number of characters of the text plus the seven of the
    delimiter is at most the capacity of the first frame, which is the
    capacity of the headerless library, [floor ((3 * width * height - 56) / 8)];
    otherwise it throws the capacity error reporting that capacity, whichever
    of the two checks rejects the text: its own, on the characters of the
    text, or that of [encodeText], on the text with the delimiter. *)
Theorem encodeTextInFrames_accepts_iff_capacity {time : Type}
    (first : Video.VideoFrame time) (others : list (Video.VideoFrame time))
    (text : jsstring) :
  let frames := first :: others in
  let n := Z.of_nat (length text) in
  let capacity := Video.calculateVideoCapacity frames in
  capacity
  = (width (Video.imageData first) * height (Video.imageData first) * 3 - 56) / 8
  /\ ((exists out, Video.encodeTextInFrames frames text = Video.VOk out)
      <-> n + 7 <= capacity)
  /\ (capacity < n + 7 ->
      Video.encodeTextInFrames frames text
      = Video.VThrow (Video.Codec (CapacityExceeded capacity))).
Proof.
  intros frames n capacity.
  destruct (Legacy_encodeText_cases (Video.imageData first) text)
    as [Hok Hthrow].
  change (Legacy.calculateCapacity _ _) with capacity in Hok, Hthrow.
  fold n in Hok, Hthrow.
  assert (Hreject : capacity < n + 7 ->
            Video.encodeTextInFrames frames text
            = Video.VThrow (Video.Codec (CapacityExceeded capacity))).
  { intro H. destruct (Z.le_gt_cases n capacity) as [Hfit|Hover].
    - unfold frames. rewrite encodeTextInFrames_first by exact Hfit.
      now rewrite (Hthrow H).
    - apply encodeTextInFrames_too_long. fold frames capacity n. lia. }
  split; [reflexivity|]. split; [split|exact Hreject].
  - intros [out Hout].
    destruct (Z.le_gt_cases (n + 7) capacity) as [Hfit|Hover]; [exact Hfit|].
    rewrite (Hreject ltac:(lia)) in Hout. discriminate.
  - intro Hfit. unfold frames.
    rewrite encodeTextInFrames_first
      by (change (Legacy.calculateCapacity _ _) with capacity; fold n; lia).
    rewrite (Hok Hfit). eexists. reflexivity.
Qed.

Lemma encodeTextInFrames_accepts_iff_capacity_witness :
  Video.calculateVideoCapacity [Video.mkVideoFrame (blank 10 10 0) 0] = 30
  /\ (exists out,
        Video.encodeTextInFrames [Video.mkVideoFrame (blank 10 10 0) 0]
          (repeat 97 23) = Video.VOk out)
  /\ Video.encodeTextInFrames [Video.mkVideoFrame (blank 10 10 0) 0]
       (repeat 97 24)
     = Video.VThrow (Video.Codec (CapacityExceeded 30))
  /\ Video.encodeTextInFrames [Video.mkVideoFrame (blank 10 10 0) 0]
       (repeat 97 31)
     = Video.VThrow (Video.Codec (CapacityExceeded 30)).
Proof.
  split; [|split; [|split]].
  - apply (proj1 (encodeTextInFrames_accepts_iff_capacity
                    (Video.mkVideoFrame (blank 10 10 0) 0) [] [])).
  - apply (proj1 (proj2 (encodeTextInFrames_accepts_iff_capacity
                           (Video.mkVideoFrame (blank 10 10 0) 0) []
                           (repeat 97 23)))).
    vm_compute. discriminate.
  - apply (proj2 (proj2 (encodeTextInFrames_accepts_iff_capacity
                           (Video.mkVideoFrame (blank 10 10 0) 0) []
                           (repeat 97 24)))).
    vm_compute. reflexivity.
  - apply (proj2 (proj2 (encodeTextInFrames_accepts_iff_capacity
                           (Video.mkVideoFrame (blank 10 10 0) 0) []
                           (repeat 97 31)))).
    vm_compute. reflexivity.
Defined.

(** X17: round trip through video frames: for a non-empty list of frames
    whose first image is a raster, and a text whose character codes are in
    0..255, which with the delimiter appended holds the delimiter only at its
    end and fits the capacity of that image, [decodeTextFromFrames] on the
    frames [encodeTextInFrames] returned gives the text. *)
Theorem video_round_trip {time : Type}
    (first : Video.VideoFrame time) (others : list (Video.VideoFrame time))
    (text : jsstring) :
  raster (Video.imageData first) -> byte_text text ->
  delimiter_only_at_end (text ++ DELIMITER) = true ->
  Z.of_nat (length text) + 7 <= Video.calculateVideoCapacity (first :: others) ->
  exists out,
    Video.encodeTextInFrames (first :: others) text = Video.VOk out
    /\ Video.decodeTextFromFrames out = Video.VOk text.
Proof.
  intros Hr Hbyte Hdelim Hcap. cbn [Video.calculateVideoCapacity] in Hcap.
  destruct (Legacy_encodeText_cases (Video.imageData first) text) as [Hok _].
  specialize (Hok Hcap).
  eexists. rewrite encodeTextInFrames_first by lia. rewrite Hok.
  split; [reflexivity|].
  cbn [Video.decodeTextFromFrames Video.imageData].
  now rewrite (Legacy_decode_after_encode _ _ text Hr Hbyte Hdelim Hok).
Qed.

Lemma video_round_trip_witness :
  exists out,
    Video.encodeTextInFrames
      [Video.mkVideoFrame (blank 10 10 0) 0; Video.mkVideoFrame (blank 10 10 9) 33]
      (str "hello"%string) = Video.VOk out
    /\ Video.decodeTextFromFrames out = Video.VOk (str "hello"%string).
Proof.
  apply (video_round_trip (Video.mkVideoFrame (blank 10 10 0) 0)
           [Video.mkVideoFrame (blank 10 10 9) 33] (str "hello"%string)).
  - unfold raster, blank. cbn [Video.imageData width height data].
    split; [lia|]. split; [lia|]. split; [reflexivity|].
    apply Forall_forall. intros d Hd. apply repeat_spec in Hd. lia.
  - apply Forall_forall. intros c Hc. cbn in Hc. lia.
  - vm_compute. reflexivity.
  - vm_compute. discriminate.
Defined.
